(** * react-native-image-zoom: the gesture/transform engine and its helpers

    A shallow embedding of the hooks and utilities of the zoomable view
    ([utils/clamp], [utils/limits], [utils/sum], [hooks/usePanGestureCount],
    [hooks/useInteractionId], [hooks/useAnimationEnd], [hooks/useGestures])
    together with the properties stated about them.

    Numbers.  A JavaScript [number] is modelled as an exact rational [Q]:
    rounding, infinities and NaN are outside the model.  Equality of
    computed numbers is therefore stated with [==] (equality of rationals)
    wherever a value is the result of arithmetic, and with [=] where the
    code stores a value unchanged.  The pan counter, which only ever holds
    integers, is a [Z]. *)

From Stdlib Require Import ZArith QArith Qminmax Qabs Lia Lqa List Permutation.
From stdpp Require Import gmap strings list fin_maps pretty.

Local Open Scope Z_scope.

(** ** Comparisons of numbers, as booleans *)

(** [a > b] *)
Definition Qgtb (a b : Q) : bool := negb (Qle_bool a b).
(** [a >= b] *)
Definition Qgeb (a b : Q) : bool := Qle_bool b a.
(** [a < b] *)
Definition Qltb (a b : Q) : bool := negb (Qle_bool b a).
(** [a <= b] *)
Definition Qleb (a b : Q) : bool := Qle_bool a b.

(** ** utils/clamp *)

(** [Math.min(Math.max(min, value), max)] *)
Definition clamp (value min max : Q) : Q := Qmin (Qmax min value) max.

(** ** Shared values

    A Reanimated shared value is a mutable cell.  Assigning a number stores
    it; assigning the result of [withTiming] or [withDecay] starts an
    animation on the cell, whose completion callback is kept with it.  The
    callbacks the engine installs are closures over a few captured values;
    they are represented by their captured data. *)

Inductive ANIMATION_VALUE :=
  SCALE | FOCAL_X | FOCAL_Y | TRANSLATE_X | TRANSLATE_Y.

Inductive ZOOM_TYPE := ZOOM_IN | ZOOM_OUT.

(** The payload of a pan gesture event, as far as the engine reads it. *)
Record PanEvent := {
  translationX : Q;
  translationY : Q;
  velocityX : Q;
  velocityY : Q;
}.

(** The payload of a pinch gesture event. *)
Record PinchEvent := {
  pinch_scale : Q;
  focalX : Q;
  focalY : Q;
}.

(** The argument of [zoom]. *)
Record ZoomEvent := {
  zoom_scale : Q;
  zoom_x : Q;
  zoom_y : Q;
}.

(** Completion callbacks handed to the animation engine. *)
Inductive AnimationCallback :=
  (** [(...args) => onAnimationEnd(interactionId, value, lastValue, ...args)] *)
  | ResetEnd (interactionId : string) (value : ANIMATION_VALUE) (lastValue : Q)
  (** [() => { if (event.velocityX >= event.velocityY) runOnJS(onPanEnded)(event, success) }] *)
  | DecayEndX (event : PanEvent) (success : bool)
  (** [() => { if (event.velocityY > event.velocityX) runOnJS(onPanEnded)(event, success) }] *)
  | DecayEndY (event : PanEvent) (success : bool).

Record DecayConfig := {
  velocity : Q;
  velocityFactor : Q;
  rubberBandEffect : bool;
  rubberBandFactor : Q;
  decay_clamp : Q * Q;
}.

Inductive Animation :=
  | withTiming (toValue : Q) (callback : option AnimationCallback)
  | withDecay (config : DecayConfig) (callback : option AnimationCallback).

Record SharedValue := {
  value : Q;
  animation : option Animation;
}.

Definition useSharedValue (v : Q) : SharedValue :=
  {| value := v; animation := None |}.

(** [cell.value = v] for a number [v].  An animation still running on the
    cell is dropped; what the animation engine then tells its callback is
    not part of the model. *)
Definition assign (v : Q) (cell : SharedValue) : SharedValue :=
  {| value := v; animation := None |}.

(** [cell.value = anim] for an animation object: the cell keeps its current
    number until the animation engine moves it, and [anim] replaces any
    animation that was running on the cell. *)
Definition animate (a : Animation) (cell : SharedValue) : SharedValue :=
  {| value := value cell; animation := Some a |}.

(** ** utils/limits *)

Module limits.

(** [(width * (scale.value - 1)) / 2] *)
Definition right (width : Q) (scale : SharedValue) : Q :=
  ((width * (value scale - 1)) / 2)%Q.

Definition left (width : Q) (scale : SharedValue) : Q :=
  (- right width scale)%Q.

(** [(height * (scale.value - 1)) / 2] *)
Definition bottom (height : Q) (scale : SharedValue) : Q :=
  ((height * (value scale - 1)) / 2)%Q.

Definition top (height : Q) (scale : SharedValue) : Q :=
  (- bottom height scale)%Q.

End limits.

(** ** utils/sum *)

(** [animatedValues.reduce((result, v) => result + v.value, 0)] *)
Definition sum (animatedValues : list SharedValue) : Q :=
  fold_left (fun result animatedValue => (result + value animatedValue)%Q)
            animatedValues 0%Q.

(** ** hooks/usePanGestureCount *)

Module usePanGestureCount.

(** The state is [panGestureCount.current], initially 0. *)
Definition initial : Z := 0.

(** [panGestureCount.current > 0] *)
Definition isPanning (current : Z) : bool := 0 <? current.

(** [panGestureCount.current++] *)
Definition startPan (current : Z) : Z := current + 1.

(** [panGestureCount.current > 0 && panGestureCount.current--] *)
Definition endPan (current : Z) : Z :=
  if 0 <? current then current - 1 else current.

Inductive call := StartPan | EndPan.

Definition step (current : Z) (c : call) : Z :=
  match c with
  | StartPan => startPan current
  | EndPan => endPan current
  end.

Definition run (calls : list call) (current : Z) : Z :=
  fold_left step calls current.

End usePanGestureCount.

(** ** hooks/useAnimationEnd: the animation completion aggregator *)

#[global] Instance ANIMATION_VALUE_eq_dec : EqDecision ANIMATION_VALUE.
Proof. solve_decision. Defined.

Definition ANIMATION_VALUE_code (v : ANIMATION_VALUE) : nat :=
  match v with
  | SCALE => 0 | FOCAL_X => 1 | FOCAL_Y => 2 | TRANSLATE_X => 3 | TRANSLATE_Y => 4
  end%nat.

Definition ANIMATION_VALUE_of_code (n : nat) : ANIMATION_VALUE :=
  match n with
  | 0 => SCALE | 1 => FOCAL_X | 2 => FOCAL_Y | 3 => TRANSLATE_X | _ => TRANSLATE_Y
  end%nat.

#[global] Instance ANIMATION_VALUE_countable : Countable ANIMATION_VALUE.
Proof.
  refine (inj_countable' ANIMATION_VALUE_code ANIMATION_VALUE_of_code _).
  intros []; reflexivity.
Defined.

(** One entry of [EndValues]: [{ lastValue, finished?, current? }].  The two
    optional fields are whatever the animation engine passed to the
    completion callback. *)
Record EndValue := {
  lastValue : Q;
  finished : option bool;
  current : option Q;
}.

(** [PartialEndValues]: a JS object keyed by animation value. *)
Abbreviation PartialEndValues := (gmap ANIMATION_VALUE EndValue).

(** [InteractionEndValues]: a JS object keyed by interaction id.  The ids
    the engine uses are the empty string and decimal timestamps; property
    names a JS object inherits from its prototype are outside the model. *)
Abbreviation InteractionEndValues := (gmap string PartialEndValues).

(** JS truthiness of an optional boolean. *)
Definition truthy (b : option bool) : bool :=
  match b with Some true => true | _ => false end.

(** What is dispatched to the JS thread with [runOnJS], in issuance order. *)
Inductive JSCall :=
  | onResetAnimationEnd_call (completed : bool) (values : PartialEndValues)
  | onProgrammaticZoom_call (zoomType : ZOOM_TYPE)
  | onPanStarted_call (event : PanEvent)
  | onPanEnded_call (event : PanEvent) (success : bool)
  | onPinchStarted_call (event : PinchEvent)
  | onPinchEnded_call (event : PinchEvent) (success : bool).

Module useAnimationEnd.

Definition ANIMATION_VALUES : list ANIMATION_VALUE :=
  [SCALE; FOCAL_X; FOCAL_Y; TRANSLATE_X; TRANSLATE_Y].

(** [ANIMATION_VALUES.every((item) => !!endValues[item])] *)
Definition isAnimationComplete (endValues : PartialEndValues) : bool :=
  forallb (fun item => match endValues !! item with
                       | Some _ => true
                       | None => false
                       end) ANIMATION_VALUES.

(** [Object.values(o)] *)
Definition Object_values (o : PartialEndValues) : list EndValue :=
  (map_to_list o).*2.

(** [!Object.values(currentEndValues).some((item) => !item.finished)] *)
Definition allFinished (currentEndValues : PartialEndValues) : bool :=
  negb (existsb (fun item => negb (truthy (finished item)))
                (Object_values currentEndValues)).

(** The hook's [onAnimationEnd].  [onResetAnimationEnd] tells whether the
    optional callback of that name was supplied; the result is the new
    content of the [endValues] shared value and the calls dispatched to
    the JS thread. *)
Definition onAnimationEnd (onResetAnimationEnd : bool)
    (interactionId : string) (value : ANIMATION_VALUE) (lastValue : Q)
    (finished : option bool) (current : option Q)
    (endValues : InteractionEndValues)
  : InteractionEndValues * list JSCall :=
  if onResetAnimationEnd then
    let currentEndValues := default ∅ (endValues !! interactionId) in
    let currentEndValues :=
      <[value := {| lastValue := lastValue;
                    finished := finished;
                    current := current |}]> currentEndValues in
    if isAnimationComplete currentEndValues then
      let completed := allFinished currentEndValues in
      (delete interactionId endValues,
       [onResetAnimationEnd_call completed currentEndValues])
    else
      (<[interactionId := currentEndValues]> endValues, [])
  else (endValues, []).

(** One call of [onAnimationEnd], as data. *)
Record Completion := {
  c_interactionId : string;
  c_value : ANIMATION_VALUE;
  c_lastValue : Q;
  c_finished : option bool;
  c_current : option Q;
}.

Definition entry (c : Completion) : EndValue :=
  {| lastValue := c_lastValue c;
     finished := c_finished c;
     current := c_current c |}.

(** Feeding a sequence of completions to [onAnimationEnd], collecting the
    dispatched calls in order. *)
Fixpoint feed (onResetAnimationEnd : bool) (cs : list Completion)
    (endValues : InteractionEndValues)
  : InteractionEndValues * list JSCall :=
  match cs with
  | [] => (endValues, [])
  | c :: cs' =>
      let (endValues', calls) :=
        onAnimationEnd onResetAnimationEnd (c_interactionId c) (c_value c)
          (c_lastValue c) (c_finished c) (c_current c) endValues in
      let (endValues'', calls') := feed onResetAnimationEnd cs' endValues' in
      (endValues'', calls ++ calls')
  end.

(** The record a sequence of completions of one session builds up in
    [currentEndValues], later entries overwriting earlier ones. *)
Definition record (cs : list Completion) (r : PartialEndValues)
  : PartialEndValues :=
  fold_left (fun r c => <[c_value c := entry c]> r) cs r.

End useAnimationEnd.

(** ** hooks/useGestures: the gesture/transform engine *)

(** The shared values the hook creates, by the name of the variable that
    holds them. *)
Inductive Ref :=
  | savedScale | scale
  | initialFocal_x | initialFocal_y
  | savedFocal_x | savedFocal_y
  | focal_x | focal_y
  | savedTranslate_x | savedTranslate_y
  | translate_x | translate_y.

(** Identity of cells. *)
Definition Ref_eqb (a b : Ref) : bool :=
  match a, b with
  | savedScale, savedScale | scale, scale
  | initialFocal_x, initialFocal_x | initialFocal_y, initialFocal_y
  | savedFocal_x, savedFocal_x | savedFocal_y, savedFocal_y
  | focal_x, focal_x | focal_y, focal_y
  | savedTranslate_x, savedTranslate_x | savedTranslate_y, savedTranslate_y
  | translate_x, translate_x | translate_y, translate_y => true
  | _, _ => false
  end.

(** The arguments of [useGestures] that the modelled worklets read.
    [onResetAnimationEnd] tells whether that optional callback was
    supplied. *)
Record Props := {
  width : Q;
  height : Q;
  center_x : Q;
  center_y : Q;
  minScale : Q;
  maxScale : Q;
  doubleTapScale : Q;
  isDoubleTapEnabled : bool;
  onResetAnimationEnd : bool;
}.

(** The state the worklets of one hook instance act on. *)
Record World := {
  cells : Ref -> SharedValue;
  (** the shared value of [useInteractionId] *)
  interactionId : string;
  (** the shared value of [useAnimationEnd] *)
  endValues : InteractionEndValues;
  (** calls dispatched with [runOnJS], oldest first *)
  jsCalls : list JSCall;
}.

(** The state right after the hook is created, with the internal scale. *)
Definition initialWorld : World :=
  {| cells := fun r => match r with
                       | savedScale | scale => useSharedValue 1
                       | _ => useSharedValue 0
                       end;
     interactionId := "";
     endValues := ∅;
     jsCalls := [] |}.

(** A worklet is a state transformer over [World]. *)
Definition Worklet (A : Type) : Type := World -> A * World.

Definition ret {A} (a : A) : Worklet A := fun w => (a, w).

Definition bind {A B} (m : Worklet A) (k : A -> Worklet B) : Worklet B :=
  fun w => let (a, w') := m w in k a w'.

Declare Scope worklet_scope.
Delimit Scope worklet_scope with worklet.
Notation "x <- m ;; k" := (bind m (fun x => k))
  (at level 100, m at next level, right associativity) : worklet_scope.
Notation "m ;; k" := (bind m (fun _ => k))
  (at level 100, right associativity) : worklet_scope.

(** The state a worklet leaves behind. *)
Definition exec {A} (m : Worklet A) (w : World) : World := snd (m w).

(** [r.value] *)
Definition read (r : Ref) : Worklet Q := fun w => (value (cells w r), w).

Definition update (r : Ref) (f : SharedValue -> SharedValue) : Worklet unit :=
  fun w =>
    (tt, {| cells := fun r' => if Ref_eqb r' r then f (cells w r) else cells w r';
            interactionId := interactionId w;
            endValues := endValues w;
            jsCalls := jsCalls w |}).

(** [r.value = v] *)
Definition write (r : Ref) (v : Q) : Worklet unit := update r (assign v).

(** [r.value = withTiming(...)] or [r.value = withDecay(...)] *)
Definition start (r : Ref) (a : Animation) : Worklet unit := update r (animate a).

(** [runOnJS(f)(args)] *)
Definition runOnJS (c : JSCall) : Worklet unit :=
  fun w =>
    (tt, {| cells := cells w;
            interactionId := interactionId w;
            endValues := endValues w;
            jsCalls := jsCalls w ++ [c] |}).

(** [useInteractionId().getInteractionId] *)
Definition getInteractionId : Worklet string := fun w => (interactionId w, w).

Section useGestures.

Variable props : Props.

Local Open Scope worklet_scope.
Local Open Scope Q_scope.

(** [useAnimationEnd(onResetAnimationEnd).onAnimationEnd], acting on the
    [endValues] shared value of the world. *)
Definition onAnimationEnd (id : string) (v : ANIMATION_VALUE) (last : Q)
    (finished : option bool) (current : option Q) : Worklet unit :=
  fun w =>
    let (endValues', calls) :=
      useAnimationEnd.onAnimationEnd (onResetAnimationEnd props)
        id v last finished current (endValues w) in
    (tt, {| cells := cells w;
            interactionId := interactionId w;
            endValues := endValues';
            jsCalls := jsCalls w ++ calls |}).

Definition reset : Worklet unit :=
  interactionId <- getInteractionId ;;
  write savedScale 1 ;;
  lastScaleValue <- read scale ;;
  start scale
    (withTiming 1 (Some (ResetEnd interactionId SCALE lastScaleValue))) ;;
  write initialFocal_x 0 ;;
  write initialFocal_y 0 ;;
  write savedFocal_x 0 ;;
  write savedFocal_y 0 ;;
  lastFocalXValue <- read focal_x ;;
  start focal_x
    (withTiming 0 (Some (ResetEnd interactionId FOCAL_X lastFocalXValue))) ;;
  lastFocalYValue <- read focal_y ;;
  start focal_y
    (withTiming 0 (Some (ResetEnd interactionId FOCAL_Y lastFocalYValue))) ;;
  write savedTranslate_x 0 ;;
  write savedTranslate_y 0 ;;
  lastTranslateXValue <- read translate_x ;;
  start translate_x
    (withTiming 0 (Some (ResetEnd interactionId TRANSLATE_X lastTranslateXValue))) ;;
  lastTranslateYValue <- read translate_y ;;
  start translate_y
    (withTiming 0 (Some (ResetEnd interactionId TRANSLATE_Y lastTranslateYValue))).

(** [limits.right(width, scale)] and [limits.bottom(height, scale)] read
    the [scale] cell. *)
Definition limits_right : Worklet Q :=
  fun w => (limits.right (width props) (cells w scale), w).

Definition limits_bottom : Worklet Q :=
  fun w => (limits.bottom (height props) (cells w scale), w).

(** [sum(a, b)] on two cells *)
Definition sum2 (a b : Ref) : Worklet Q :=
  fun w => (sum [cells w a; cells w b], w).

Definition moveIntoView : Worklet unit :=
  s <- read scale ;;
  if Qgtb s 1 then
    rightLimit <- limits_right ;;
    let leftLimit := - rightLimit in
    bottomLimit <- limits_bottom ;;
    let topLimit := - bottomLimit in
    totalTranslateX <- sum2 translate_x focal_x ;;
    totalTranslateY <- sum2 translate_y focal_y ;;
    (if Qgtb totalTranslateX rightLimit then
       start translate_x (withTiming rightLimit None) ;;
       start focal_x (withTiming 0 None)
     else if Qltb totalTranslateX leftLimit then
       start translate_x (withTiming leftLimit None) ;;
       start focal_x (withTiming 0 None)
     else ret tt) ;;
    (if Qgtb totalTranslateY bottomLimit then
       start translate_y (withTiming bottomLimit None) ;;
       start focal_y (withTiming 0 None)
     else if Qltb totalTranslateY topLimit then
       start translate_y (withTiming topLimit None) ;;
       start focal_y (withTiming 0 None)
     else ret tt)
  else
    reset.

Definition zoom (event : ZoomEvent) : Worklet unit :=
  if Qgtb (zoom_scale event) 1 then
    runOnJS (onProgrammaticZoom_call ZOOM_IN) ;;
    start scale (withTiming (zoom_scale event) None) ;;
    start focal_x
      (withTiming ((center_x props - zoom_x event) * (zoom_scale event - 1)) None) ;;
    start focal_y
      (withTiming ((center_y props - zoom_y event) * (zoom_scale event - 1)) None)
  else
    runOnJS (onProgrammaticZoom_call ZOOM_OUT) ;;
    reset.

(** *** The two pan recognizers *)

Definition panWhilePinchingGesture_onStart (event : PanEvent) : Worklet unit :=
  runOnJS (onPanStarted_call event) ;;
  tx <- read translate_x ;;
  write savedTranslate_x tx ;;
  ty <- read translate_y ;;
  write savedTranslate_y ty.

Definition panWhilePinchingGesture_onUpdate (event : PanEvent) : Worklet unit :=
  sx <- read savedTranslate_x ;;
  write translate_x (sx + translationX event) ;;
  sy <- read savedTranslate_y ;;
  write translate_y (sy + translationY event).

Definition panWhilePinchingGesture_onEnd (event : PanEvent) (success : bool)
  : Worklet unit :=
  rightLimit <- limits_right ;;
  let leftLimit := - rightLimit in
  bottomLimit <- limits_bottom ;;
  let topLimit := - bottomLimit in
  s <- read scale ;;
  if Qgtb s 1 && isDoubleTapEnabled props then
    fx <- read focal_x ;;
    start translate_x
      (withDecay {| velocity := velocityX event;
                    velocityFactor := 0.6;
                    rubberBandEffect := true;
                    rubberBandFactor := 0.9;
                    decay_clamp := (leftLimit - fx, rightLimit - fx) |}
                 (Some (DecayEndX event success))) ;;
    fy <- read focal_y ;;
    start translate_y
      (withDecay {| velocity := velocityY event;
                    velocityFactor := 0.6;
                    rubberBandEffect := true;
                    rubberBandFactor := 0.9;
                    decay_clamp := (topLimit - fy, bottomLimit - fy) |}
                 (Some (DecayEndY event success)))
  else
    runOnJS (onPanEnded_call event success).

(** The state of a recognizer, and the [manager] handed to
    [onTouchesDown]: [manager.fail()] moves the recognizer to [FAILED]. *)
Inductive GestureState := UNDETERMINED | BEGAN | ACTIVE | FAILED | END.

Definition manager_fail (manager : GestureState) : GestureState := FAILED.

Definition panOnlyGesture_onTouchesDown (manager : GestureState)
  : Worklet GestureState :=
  s <- read scale ;;
  if Qleb s 1 then ret (manager_fail manager) else ret manager.

Definition panOnlyGesture_onStart (event : PanEvent) : Worklet unit :=
  runOnJS (onPanStarted_call event) ;;
  tx <- read translate_x ;;
  write savedTranslate_x tx ;;
  ty <- read translate_y ;;
  write savedTranslate_y ty.

Definition panOnlyGesture_onUpdate (event : PanEvent) : Worklet unit :=
  sx <- read savedTranslate_x ;;
  write translate_x (sx + translationX event) ;;
  sy <- read savedTranslate_y ;;
  write translate_y (sy + translationY event).

Definition panOnlyGesture_onEnd (event : PanEvent) (success : bool)
  : Worklet unit :=
  rightLimit <- limits_right ;;
  let leftLimit := - rightLimit in
  bottomLimit <- limits_bottom ;;
  let topLimit := - bottomLimit in
  s <- read scale ;;
  if Qgtb s 1 && isDoubleTapEnabled props then
    fx <- read focal_x ;;
    start translate_x
      (withDecay {| velocity := velocityX event;
                    velocityFactor := 0.6;
                    rubberBandEffect := true;
                    rubberBandFactor := 0.9;
                    decay_clamp := (leftLimit - fx, rightLimit - fx) |}
                 (Some (DecayEndX event success))) ;;
    fy <- read focal_y ;;
    start translate_y
      (withDecay {| velocity := velocityY event;
                    velocityFactor := 0.6;
                    rubberBandEffect := true;
                    rubberBandFactor := 0.9;
                    decay_clamp := (topLimit - fy, bottomLimit - fy) |}
                 (Some (DecayEndY event success)))
  else
    runOnJS (onPanEnded_call event success).

(** *** The pinch recognizer *)

Definition pinchGesture_onStart (event : PinchEvent) : Worklet unit :=
  runOnJS (onPinchStarted_call event) ;;
  s <- read scale ;;
  write savedScale s ;;
  fx <- read focal_x ;;
  write savedFocal_x fx ;;
  fy <- read focal_y ;;
  write savedFocal_y fy ;;
  write initialFocal_x (focalX event) ;;
  write initialFocal_y (focalY event).

Definition pinchGesture_onUpdate (event : PinchEvent) : Worklet unit :=
  saved <- read savedScale ;;
  write scale (clamp (saved * pinch_scale event) (minScale props) (maxScale props)) ;;
  sfx <- read savedFocal_x ;;
  ifx <- read initialFocal_x ;;
  s <- read scale ;;
  saved <- read savedScale ;;
  write focal_x (sfx + (center_x props - ifx) * (s - saved)) ;;
  sfy <- read savedFocal_y ;;
  ify <- read initialFocal_y ;;
  s <- read scale ;;
  saved <- read savedScale ;;
  write focal_y (sfy + (center_y props - ify) * (s - saved)).

Definition pinchGesture_onEnd (event : PinchEvent) (success : bool)
  : Worklet unit :=
  runOnJS (onPinchEnded_call event success).

(** *** Completion callbacks

    What the closures handed to [withTiming] and [withDecay] do when the
    animation engine calls them with [(finished, current)]. *)
Definition runCallback (cb : AnimationCallback)
    (finished : option bool) (current : option Q) : Worklet unit :=
  match cb with
  | ResetEnd id v last => onAnimationEnd id v last finished current
  | DecayEndX event success =>
      if Qgeb (velocityX event) (velocityY event)
      then runOnJS (onPanEnded_call event success) else ret tt
  | DecayEndY event success =>
      if Qgtb (velocityY event) (velocityX event)
      then runOnJS (onPanEnded_call event success) else ret tt
  end.

(** *** The animation engine, as the hook relies on it

    Reanimated is an external collaborator.  Its contract, as far as the
    properties below need it: an animation started on a cell ends once;
    when it ends the cell holds a final number, the animation is gone,
    and the completion callback, if any, is called with
    [(finished, current)].  A timing animation that is not interrupted
    ends at its target with [finished = true]. *)

Definition callbackOf (a : Animation) : option AnimationCallback :=
  match a with
  | withTiming _ cb => cb
  | withDecay _ cb => cb
  end.

Definition animationEnds (r : Ref) (finished : bool) (final : Q)
  : Worklet unit :=
  fun w =>
    match animation (cells w r) with
    | None => (tt, w)
    | Some a =>
        (write r final ;;
         match callbackOf a with
         | Some cb => runCallback cb (Some finished) (Some final)
         | None => ret tt
         end) w
    end.

Definition timingSettles (r : Ref) : Worklet unit :=
  fun w =>
    match animation (cells w r) with
    | Some (withTiming toValue _) => animationEnds r true toValue w
    | _ => (tt, w)
    end.

Fixpoint settle (order : list Ref) : Worklet unit :=
  match order with
  | [] => ret tt
  | r :: order' => timingSettles r ;; settle order'
  end.

(** *** The gesture-recognition engine, as the pan-only recognizer relies
    on it

    react-native-gesture-handler is an external collaborator.  Its
    contract for one touch sequence on one recognizer: [onTouchesDown]
    runs when the contact lands, before the recognizer can activate, and
    may fail it; [onStart] runs on activation; [onUpdate] and [onEnd] run
    only for an active recognizer; a failed or ended recognizer receives
    nothing more. *)

Inductive PanTouch :=
  | TouchesDown
  | Activate (event : PanEvent)
  | Move (event : PanEvent)
  | Release (event : PanEvent) (success : bool).

Definition panOnlyGesture_deliver (st : GestureState) (t : PanTouch)
  : Worklet GestureState :=
  match st, t with
  | UNDETERMINED, TouchesDown => panOnlyGesture_onTouchesDown BEGAN
  | BEGAN, Activate event => panOnlyGesture_onStart event ;; ret ACTIVE
  | ACTIVE, Move event => panOnlyGesture_onUpdate event ;; ret ACTIVE
  | ACTIVE, Release event success =>
      panOnlyGesture_onEnd event success ;; ret END
  | _, _ => ret st
  end.

Fixpoint panOnlyGesture_sequence (st : GestureState) (ts : list PanTouch)
  : Worklet GestureState :=
  match ts with
  | [] => ret st
  | t :: ts' =>
      st' <- panOnlyGesture_deliver st t ;;
      panOnlyGesture_sequence st' ts'
  end.

End useGestures.

(** ** hooks/useInteractionId *)

Module useInteractionId.

(** The state is the [interactionId] shared value, initially [''] . *)
Definition initial : string := "".

(** [interactionId.value] *)
Definition getInteractionId (interactionId : string) : string := interactionId.

(** [interactionId.value = `${new Date().valueOf()}`], where [now] is what
    the clock reads, in milliseconds, when the function runs. *)
Definition updateInteractionId (now : Z) (interactionId : string) : string :=
  pretty now.

End useInteractionId.

(** [updateInteractionId] acting on the world's interaction id. *)
Definition updateInteractionId (now : Z) (w : World) : World :=
  {| cells := cells w;
     interactionId :=
       useInteractionId.updateInteractionId now (interactionId w);
     endValues := endValues w;
     jsCalls := jsCalls w |}.

(** ** hooks/useZoomableLayout *)

Module useZoomableLayout.

(** [event.nativeEvent.layout] *)
Record LayoutRectangle := {
  x : Q;
  y : Q;
  width : Q;
  height : Q;
}.

(** [ZoomableLayoutState]: [{ ...layout, center }] *)
Record ZoomableLayoutState := {
  layout : LayoutRectangle;
  center_x : Q;
  center_y : Q;
}.

(** The state [useState] starts from. *)
Definition initial : ZoomableLayoutState :=
  {| layout := {| x := 0; y := 0; width := 0; height := 0 |};
     center_x := 0;
     center_y := 0 |}.

(** [onZoomableLayout(event)]: the new state, and the events passed to the
    [onLayout] callback ([onLayout] tells whether it was supplied). *)
Definition onZoomableLayout (onLayout : bool) (event : LayoutRectangle)
    (state : ZoomableLayoutState)
  : ZoomableLayoutState * list LayoutRectangle :=
  let center_x := (x event + width event / 2)%Q in
  let center_y := (y event + height event / 2)%Q in
  ({| layout := event; center_x := center_x; center_y := center_y |},
   if onLayout then [event] else []).

End useZoomableLayout.

(** [useZoomable] hands the measured width, height and center to
    [useGestures], together with the configuration. *)
Definition useZoomable (state : useZoomableLayout.ZoomableLayoutState)
    (config : Props) : Props :=
  {| width := useZoomableLayout.width (useZoomableLayout.layout state);
     height := useZoomableLayout.height (useZoomableLayout.layout state);
     center_x := useZoomableLayout.center_x state;
     center_y := useZoomableLayout.center_y state;
     minScale := minScale config;
     maxScale := maxScale config;
     doubleTapScale := doubleTapScale config;
     isDoubleTapEnabled := isDoubleTapEnabled config;
     onResetAnimationEnd := onResetAnimationEnd config |}.

(** ** hooks/useGestures, continued: taps, [getInfo] and the handlers that
    run on the JS thread *)

(** The payload of a tap gesture event, as far as the engine reads it. *)
Record TapEvent := {
  tap_x : Q;
  tap_y : Q;
}.

(** What the tap recognizers dispatch with [runOnJS]. *)
Inductive TapCall :=
  | onDoubleTap_call (zoomType : ZOOM_TYPE)
  | onSingleTap_call (event : TapEvent).


(** What the host's optional callbacks receive, oldest first. *)
Inductive HostCall :=
  | onInteractionStart_call
  | onInteractionEnd_call
  | onPinchStart_call (event : PinchEvent)
  | onPinchEnd_call (event : PinchEvent) (success : bool)
  | onPanStart_call (event : PanEvent)
  | onPanEnd_call (event : PanEvent) (success : bool).

(** Which of the optional callbacks were supplied. *)
Record HostCallbacks := {
  onInteractionStart : bool;
  onInteractionEnd : bool;
  onPinchStart : bool;
  onPinchEnd : bool;
  onPanStart : bool;
  onPanEnd : bool;
}.

(** The refs of the hook that live on the JS thread, the calls made to the
    host, and the world the handlers act on. *)
Record JSThread := {
  isInteracting : bool;
  isPinching : bool;
  panGestureCount : Z;
  hostCalls : list HostCall;
  world : World;
}.

Definition initialJSThread : JSThread :=
  {| isInteracting := false;
     isPinching := false;
     panGestureCount := usePanGestureCount.initial;
     hostCalls := [];
     world := initialWorld |}.

Definition set_isInteracting (b : bool) (js : JSThread) : JSThread :=
  {| isInteracting := b; isPinching := isPinching js;
     panGestureCount := panGestureCount js;
     hostCalls := hostCalls js; world := world js |}.

Definition set_isPinching (b : bool) (js : JSThread) : JSThread :=
  {| isInteracting := isInteracting js; isPinching := b;
     panGestureCount := panGestureCount js;
     hostCalls := hostCalls js; world := world js |}.

Definition on_panGestureCount (f : Z -> Z) (js : JSThread) : JSThread :=
  {| isInteracting := isInteracting js; isPinching := isPinching js;
     panGestureCount := f (panGestureCount js);
     hostCalls := hostCalls js; world := world js |}.

Definition on_world (f : World -> World) (js : JSThread) : JSThread :=
  {| isInteracting := isInteracting js; isPinching := isPinching js;
     panGestureCount := panGestureCount js;
     hostCalls := hostCalls js; world := f (world js) |}.

(** [callback?.(args)] *)
Definition optionalCall (supplied : bool) (c : HostCall) (js : JSThread)
  : JSThread :=
  {| isInteracting := isInteracting js; isPinching := isPinching js;
     panGestureCount := panGestureCount js;
     hostCalls := hostCalls js ++ (if supplied then [c] else []);
     world := world js |}.

Section useGestures_JS.

Variable props : Props.
Variable host : HostCallbacks.

Local Open Scope worklet_scope.
Local Open Scope Q_scope.

(** *** The tap recognizers *)

Definition doubleTapGesture_onStart (event : TapEvent)
  : Worklet (list TapCall) :=
  s <- read scale ;;
  if Qeq_bool s 1 then
    start scale (withTiming (doubleTapScale props) None) ;;
    start focal_x
      (withTiming ((center_x props - tap_x event) * (doubleTapScale props - 1))
                  None) ;;
    start focal_y
      (withTiming ((center_y props - tap_y event) * (doubleTapScale props - 1))
                  None) ;;
    ret [onDoubleTap_call ZOOM_IN]
  else
    reset ;;
    ret [onDoubleTap_call ZOOM_OUT].

Definition singleTapGesture_onStart (event : TapEvent)
  : Worklet (list TapCall) :=
  ret [onSingleTap_call event].

(** *** [getInfo] *)


(** *** Handlers on the JS thread *)

Definition isPanning (js : JSThread) : bool :=
  usePanGestureCount.isPanning (panGestureCount js).

Definition startPan : JSThread -> JSThread :=
  on_panGestureCount usePanGestureCount.startPan.

Definition endPan : JSThread -> JSThread :=
  on_panGestureCount usePanGestureCount.endPan.

(** [now] is what the clock reads when the handler runs. *)
Definition onInteractionStarted (now : Z) (js : JSThread) : JSThread :=
  if negb (isInteracting js) then
    on_world (updateInteractionId now)
      (optionalCall (onInteractionStart host) onInteractionStart_call
         (set_isInteracting true js))
  else js.

Definition onInteractionEnded (js : JSThread) : JSThread :=
  if isInteracting js && negb (isPinching js) && negb (isPanning js) then
    optionalCall (onInteractionEnd host) onInteractionEnd_call
      (set_isInteracting false
         (on_world (if isDoubleTapEnabled props
                    then exec (moveIntoView props)
                    else exec reset) js))
  else js.

Definition onPinchStarted (now : Z) (event : PinchEvent) (js : JSThread)
  : JSThread :=
  optionalCall (onPinchStart host) (onPinchStart_call event)
    (set_isPinching true (onInteractionStarted now js)).

Definition onPinchEnded (event : PinchEvent) (success : bool) (js : JSThread)
  : JSThread :=
  onInteractionEnded
    (optionalCall (onPinchEnd host) (onPinchEnd_call event success)
       (set_isPinching false js)).

Definition onPanStarted (now : Z) (event : PanEvent) (js : JSThread)
  : JSThread :=
  optionalCall (onPanStart host) (onPanStart_call event)
    (startPan (onInteractionStarted now js)).

Definition onPanEnded (event : PanEvent) (success : bool) (js : JSThread)
  : JSThread :=
  onInteractionEnded
    (optionalCall (onPanEnd host) (onPanEnd_call event success)
       (endPan js)).

(** A handler call, as data, and a sequence of them. *)
Inductive JSHandlerCall :=
  | PinchStarted (now : Z) (event : PinchEvent)
  | PinchEnded (event : PinchEvent) (success : bool)
  | PanStarted (now : Z) (event : PanEvent)
  | PanEnded (event : PanEvent) (success : bool).

Definition runHandler (js : JSThread) (c : JSHandlerCall) : JSThread :=
  match c with
  | PinchStarted now event => onPinchStarted now event js
  | PinchEnded event success => onPinchEnded event success js
  | PanStarted now event => onPanStarted now event js
  | PanEnded event success => onPanEnded event success js
  end.

Definition runHandlers (cs : list JSHandlerCall) (js : JSThread) : JSThread :=
  fold_left runHandler cs js.

End useGestures_JS.

(** Sequences of events delivered to the pinch recognizer and to the
    pan-while-pinching recognizer once active. *)
Definition pinchUpdates (props : Props) (events : list PinchEvent)
  : Worklet unit :=
  fold_right (fun e k => bind (pinchGesture_onUpdate props e) (fun _ => k))
             (ret tt) events.

Definition panUpdates (events : list PanEvent) : Worklet unit :=
  fold_right (fun e k => bind (panWhilePinchingGesture_onUpdate e) (fun _ => k))
             (ret tt) events.

(** A cell once the timing animation on it, if any, has ended without
    interruption; and whether the animation on a cell carries a completion
    callback. *)
Definition settled (c : SharedValue) : SharedValue :=
  match animation c with
  | Some (withTiming toValue _) => useSharedValue toValue
  | _ => c
  end.

Definition hasCallback (c : SharedValue) : bool :=
  match animation c with
  | Some (withTiming _ (Some _)) | Some (withDecay _ (Some _)) => true
  | _ => false
  end.

(** The number of interaction-start and of interaction-end calls the host
    has received. *)
Definition interactionStarts (calls : list HostCall) : Z :=
  Z.of_nat (length (List.filter
                      (fun c => match c with
                                | onInteractionStart_call => true
                                | _ => false
                                end) calls)).

Definition interactionEnds (calls : list HostCall) : Z :=
  Z.of_nat (length (List.filter
                      (fun c => match c with
                                | onInteractionEnd_call => true
                                | _ => false
                                end) calls)).

(** Starts minus ends among the host calls. *)
Definition openInteractions (js : JSThread) : Z :=
  interactionStarts (hostCalls js) - interactionEnds (hostCalls js).

(** Whether a handler call reports the end of a gesture. *)
Definition isEnd (c : JSHandlerCall) : bool :=
  match c with
  | PinchEnded _ _ | PanEnded _ _ => true
  | _ => false
  end.

(** What [onInteractionEnded] does to the world when the interaction is
    over. *)
Definition settleStart (props : Props) : World -> World :=
  if isDoubleTapEnabled props then exec (moveIntoView props) else exec reset.

(** The refs agree with each other: interacting exactly while a pinch is
    active or a pan is counted, and a pan count that is not negative. *)
Definition consistent (js : JSThread) : Prop :=
  isInteracting js = isPinching js || isPanning js /\
  0 <= panGestureCount js.

(** The number of [StartPan] and of [EndPan] calls in a sequence. *)
Definition starts (calls : list usePanGestureCount.call) : Z :=
  Z.of_nat (length (List.filter
                      (fun c => match c with
                                | usePanGestureCount.StartPan => true
                                | usePanGestureCount.EndPan => false
                                end) calls)).

Definition ends (calls : list usePanGestureCount.call) : Z :=
  Z.of_nat (length (List.filter
                      (fun c => match c with
                                | usePanGestureCount.StartPan => false
                                | usePanGestureCount.EndPan => true
                                end) calls)).

(** ** Auxiliary notions used to state the properties *)

(** The cell each of the five animation targets names. *)
Definition cellOf (v : ANIMATION_VALUE) : Ref :=
  match v with
  | SCALE => scale
  | FOCAL_X => focal_x
  | FOCAL_Y => focal_y
  | TRANSLATE_X => translate_x
  | TRANSLATE_Y => translate_y
  end.

(** The number [reset] animates each target to. *)
Definition resetTarget (v : ANIMATION_VALUE) : Q :=
  match v with
  | SCALE => 1
  | _ => 0
  end%Q.

(** The speed of a release along an axis: the magnitude of its velocity. *)
Definition speed (v : Q) : Q := Qabs v.

(** Sample configuration and states. *)
Definition sampleProps : Props :=
  {| width := 300; height := 400; center_x := 150; center_y := 200;
     minScale := 1; maxScale := 5; doubleTapScale := 3;
     isDoubleTapEnabled := true; onResetAnimationEnd := true |}.

(** A world at rest with the given transform and interaction id. *)
Definition worldAt (id : string) (s fx fy tx ty : Q) : World :=
  {| cells := fun r => match r with
                       | savedScale => useSharedValue 1
                       | scale => useSharedValue s
                       | focal_x => useSharedValue fx
                       | focal_y => useSharedValue fy
                       | translate_x => useSharedValue tx
                       | translate_y => useSharedValue ty
                       | _ => useSharedValue 0
                       end;
     interactionId := id;
     endValues := ∅;
     jsCalls := [] |}.

(** Five completions of one session, in an order other than the one in
    which [reset] starts the animations, one of them interrupted. *)
Definition sampleCompletions : list useAnimationEnd.Completion :=
  let mk v last fin cur :=
    {| useAnimationEnd.c_interactionId := "1730000000000";
       useAnimationEnd.c_value := v;
       useAnimationEnd.c_lastValue := last;
       useAnimationEnd.c_finished := Some fin;
       useAnimationEnd.c_current := Some cur |} in
  [ mk TRANSLATE_Y 20 true 0; mk SCALE 2 true 1; mk FOCAL_Y (-40) false (-7);
    mk FOCAL_X 30 true 0; mk TRANSLATE_X 10 true 0 ]%Q.

(** A fling to the left and slightly down, and one to the right and fast
    up. *)
Definition flingLeft : PanEvent :=
  {| translationX := -120; translationY := 4;
     velocityX := -1000; velocityY := 10 |}.

Definition flingUp : PanEvent :=
  {| translationX := 3; translationY := -200;
     velocityX := 10; velocityY := -1000 |}.

(** The sample configuration with double tap disabled, a host that
    supplies every callback, and a pinch at the sample center. *)
Definition samplePropsSingleTap : Props :=
  {| width := 300; height := 400; center_x := 150; center_y := 200;
     minScale := 1; maxScale := 5; doubleTapScale := 3;
     isDoubleTapEnabled := false; onResetAnimationEnd := true |}.

Definition sampleHost : HostCallbacks :=
  {| onInteractionStart := true; onInteractionEnd := true;
     onPinchStart := true; onPinchEnd := true;
     onPanStart := true; onPanEnd := true |}.

Definition pinchAtCenter : PinchEvent :=
  {| pinch_scale := 2; focalX := 150; focalY := 200 |}.

Definition sampleLayout : useZoomableLayout.LayoutRectangle :=
  {| useZoomableLayout.x := 10; useZoomableLayout.y := 20;
     useZoomableLayout.width := 300; useZoomableLayout.height := 400 |}.

(** * Properties *)

(** ** Comparisons *)

Lemma Qgtb_true a b : Qgtb a b = true <-> (b < a)%Q.
Proof.
  unfold Qgtb. rewrite negb_true_iff, <- not_true_iff_false, Qle_bool_iff.
  split; [apply Qnot_le_lt | apply Qlt_not_le].
Qed.

Lemma Qgtb_false a b : Qgtb a b = false <-> (a <= b)%Q.
Proof. unfold Qgtb. rewrite negb_false_iff. apply Qle_bool_iff. Qed.

Lemma Qgeb_true a b : Qgeb a b = true <-> (b <= a)%Q.
Proof. apply Qle_bool_iff. Qed.

Lemma Qgeb_false a b : Qgeb a b = false <-> (a < b)%Q.
Proof.
  unfold Qgeb. rewrite <- not_true_iff_false, Qle_bool_iff.
  split; [apply Qnot_le_lt | apply Qlt_not_le].
Qed.

Lemma Qltb_true a b : Qltb a b = true <-> (a < b)%Q.
Proof. apply Qgtb_true. Qed.

Lemma Qltb_false a b : Qltb a b = false <-> (b <= a)%Q.
Proof. apply Qgtb_false. Qed.

Lemma Qleb_true a b : Qleb a b = true <-> (a <= b)%Q.
Proof. apply Qle_bool_iff. Qed.

Lemma Qleb_false a b : Qleb a b = false <-> (b < a)%Q.
Proof. apply Qgeb_false. Qed.


(** ** Limit calculator *)

(** C8: for every width, height and scale cell, [right] is
    [width * (scale - 1) / 2], [bottom] is [height * (scale - 1) / 2], and
    [left] and [top] are their exact negations, whatever the scale (also
    below 1). *)
Theorem limits_antisymmetric (w h : Q) (s : SharedValue) :
  limits.right w s = (w * (value s - 1) / 2)%Q /\
  limits.bottom h s = (h * (value s - 1) / 2)%Q /\
  limits.left w s = (- limits.right w s)%Q /\
  limits.top h s = (- limits.bottom h s)%Q.
Proof. repeat split. Qed.

(** ** Pan counter *)

Section PanCounter.

Import usePanGestureCount.

Lemma step_nonneg (c : Z) (k : call) : 0 <= c -> 0 <= step c k.
Proof.
  intros Hc. destruct k; unfold step, startPan, endPan.
  - lia.
  - destruct (0 <? c) eqn:E; [apply Z.ltb_lt in E |]; lia.
Qed.

Lemma run_nonneg (calls : list call) :
  forall c, 0 <= c -> 0 <= run calls c.
Proof.
  unfold run. induction calls as [| k calls IH]; intros c Hc; simpl.
  - exact Hc.
  - apply IH, step_nonneg, Hc.
Qed.

Lemma run_app (a b : list call) (c : Z) : run (a ++ b) c = run b (run a c).
Proof. unfold run. apply fold_left_app. Qed.

Lemma run_starts (n : nat) (c : Z) :
  run (repeat StartPan n) c = c + Z.of_nat n.
Proof.
  revert c. induction n as [| n IH]; intros c.
  - simpl. unfold run. simpl. lia.
  - change (run (repeat StartPan (S n)) c)
      with (run (repeat StartPan n) (startPan c)).
    rewrite IH. unfold startPan. lia.
Qed.

Lemma run_ends (m : nat) (c : Z) :
  0 <= c -> run (repeat EndPan m) c = Z.max 0 (c - Z.of_nat m).
Proof.
  revert c. induction m as [| m IH]; intros c Hc.
  - unfold run. simpl. lia.
  - change (run (repeat EndPan (S m)) c)
      with (run (repeat EndPan m) (endPan c)).
    unfold endPan. destruct (0 <? c) eqn:E.
    + apply Z.ltb_lt in E. rewrite IH by lia. lia.
    + apply Z.ltb_ge in E. rewrite IH by lia. lia.
Qed.

(** C9: starting from 0, the count is never negative after any sequence
    of [startPan] and [endPan] calls; [startPan] adds one; [endPan]
    subtracts one from a positive count and leaves any other count alone;
    as many [endPan] calls as [startPan] calls before them, or more,
    bring the count back to 0; and [isPanning] is true exactly for a
    positive count. *)
Theorem pan_count_never_negative (calls : list call) (c : Z) (n extra : nat) :
  0 <= run calls initial /\
  startPan c = c + 1 /\
  endPan c = (if decide (0 < c) then c - 1 else c) /\
  run (repeat StartPan n ++ repeat EndPan (n + extra)) initial = 0 /\
  isPanning c = bool_decide (0 < c).
Proof.
  split; [| split; [| split; [| split]]].
  - apply run_nonneg. unfold initial. lia.
  - reflexivity.
  - unfold endPan. destruct (decide (0 < c)) as [Hc | Hc].
    + apply Z.ltb_lt in Hc. now rewrite Hc.
    + apply Z.nlt_ge, Z.ltb_ge in Hc. now rewrite Hc.
  - rewrite run_app, run_starts, run_ends; unfold initial; lia.
  - unfold isPanning. destruct (bool_decide_reflect (0 < c)) as [Hc | Hc].
    + now apply Z.ltb_lt.
    + now apply Z.ltb_ge, Z.nlt_ge.
Qed.

End PanCounter.

(** ** Animation completion aggregator *)

Section Aggregator.

Import useAnimationEnd.

Implicit Types (r : PartialEndValues) (m : InteractionEndValues).
Implicit Types (c : Completion) (cs : list Completion).

Lemma all_ANIMATION_VALUES (v : ANIMATION_VALUE) : v ∈ ANIMATION_VALUES.
Proof. unfold ANIMATION_VALUES. destruct v; set_solver. Qed.

Lemma isAnimationComplete_true r :
  isAnimationComplete r = true <-> forall v, is_Some (r !! v).
Proof.
  unfold isAnimationComplete. rewrite forallb_forall. split.
  - intros H v. specialize (H v).
    destruct (r !! v); [eauto |].
    discriminate H. apply list_elem_of_In, all_ANIMATION_VALUES.
  - intros H v _. destruct (H v) as [e ->]. reflexivity.
Qed.

Lemma isAnimationComplete_false r :
  isAnimationComplete r = false <-> exists v, r !! v = None.
Proof.
  rewrite <- not_true_iff_false, isAnimationComplete_true. split.
  - intros H.
    destruct (decide (Forall (fun v => is_Some (r !! v)) ANIMATION_VALUES))
      as [Hall | Hnot].
    + exfalso. apply H. intros v.
      rewrite Forall_forall in Hall. apply Hall, all_ANIMATION_VALUES.
    + apply not_Forall_Exists in Hnot; [| intros v; apply _].
      apply Exists_exists in Hnot as (v & _ & Hv).
      exists v. now apply eq_None_not_Some.
  - intros (v & Hv) H. specialize (H v). rewrite Hv in H.
    now apply is_Some_None in H.
Qed.

Lemma record_cons c cs r :
  record (c :: cs) r = record cs (<[c_value c := entry c]> r).
Proof. reflexivity. Qed.

Lemma record_snoc cs c r :
  record (cs ++ [c]) r = <[c_value c := entry c]> (record cs r).
Proof. unfold record. now rewrite fold_left_app. Qed.

Lemma record_lookup_notin cs : forall r v,
  v ∉ c_value <$> cs -> record cs r !! v = r !! v.
Proof.
  induction cs as [| c cs IH]; intros r v Hv; [reflexivity |].
  rewrite fmap_cons, not_elem_of_cons in Hv. destruct Hv as [Hne Hv].
  rewrite record_cons, IH by exact Hv.
  now apply lookup_insert_ne.
Qed.

Lemma record_lookup_keeps cs : forall r v,
  is_Some (r !! v) -> is_Some (record cs r !! v).
Proof.
  induction cs as [| c cs IH]; intros r v Hv; [exact Hv |].
  rewrite record_cons. apply IH. rewrite lookup_insert_is_Some. 
  destruct (decide (c_value c = v)); auto.
Qed.

Lemma record_lookup_in cs : forall r v,
  v ∈ c_value <$> cs -> is_Some (record cs r !! v).
Proof.
  induction cs as [| c cs IH]; intros r v Hv; [set_solver |].
  rewrite record_cons. rewrite fmap_cons, elem_of_cons in Hv.
  destruct (decide (v ∈ c_value <$> cs)) as [Hin | Hnotin].
  - now apply IH.
  - destruct Hv as [-> | Hv]; [| contradiction].
    rewrite record_lookup_notin by exact Hnotin.
    rewrite lookup_insert_eq. eauto.
Qed.

(** With pairwise different targets, every completion is found in the
    record under its target. *)
Lemma record_lookup_NoDup cs : forall r c,
  NoDup (c_value <$> cs) -> c ∈ cs ->
  record cs r !! c_value c = Some (entry c).
Proof.
  induction cs as [| c0 cs IH]; intros r c Hnd Hc; [set_solver |].
  rewrite fmap_cons in Hnd. apply NoDup_cons in Hnd as [Hnotin Hnd].
  rewrite record_cons. apply elem_of_cons in Hc as [-> | Hc].
  - rewrite record_lookup_notin by exact Hnotin. apply lookup_insert_eq.
  - now apply IH.
Qed.

Lemma record_complete_mono cs r :
  isAnimationComplete r = true -> isAnimationComplete (record cs r) = true.
Proof.
  rewrite !isAnimationComplete_true. intros H v.
  apply record_lookup_keeps, H.
Qed.

Lemma allFinished_true r :
  allFinished r = true <->
  forall v e, r !! v = Some e -> finished e = Some true.
Proof.
  unfold allFinished, Object_values. split.
  - intros H v e Hve. apply negb_true_iff in H.
    destruct (finished e) as [[|] |] eqn:E; [reflexivity | |];
      exfalso; apply not_true_iff_false in H; apply H, existsb_exists;
      exists e; rewrite E; (split; [| reflexivity]);
      apply list_elem_of_In, list_elem_of_fmap; exists (v, e);
      (split; [reflexivity | now apply elem_of_map_to_list]).
  - intros H. apply negb_true_iff, not_true_iff_false.
    intros (e & Hin & Hneg)%existsb_exists.
    apply list_elem_of_In, list_elem_of_fmap in Hin as ([v e'] & -> & Hin).
    apply elem_of_map_to_list in Hin. apply H in Hin. simpl in Hneg.
    now rewrite Hin in Hneg.
Qed.

Lemma feed_app b cs1 cs2 m :
  feed b (cs1 ++ cs2) m =
  let (m1, calls1) := feed b cs1 m in
  let (m2, calls2) := feed b cs2 m1 in
  (m2, calls1 ++ calls2).
Proof.
  revert m. induction cs1 as [| c cs1 IH]; intros m; simpl.
  - now destruct (feed b cs2 m).
  - destruct (onAnimationEnd b _ _ _ _ _ m) as [m' calls].
    rewrite IH. destruct (feed b cs1 m') as [m1 calls1].
    destruct (feed b cs2 m1) as [m2 calls2]. now rewrite app_assoc.
Qed.

(** While the record of the session is short of a target, nothing is
    dispatched and the record is kept in the map. *)
Lemma feed_incomplete id cs : forall m,
  Forall (fun c => c_interactionId c = id) cs ->
  isAnimationComplete (record cs (default ∅ (m !! id))) = false ->
  feed true cs m =
  (match cs with
   | [] => m
   | _ :: _ => <[id := record cs (default ∅ (m !! id))]> m
   end, []).
Proof.
  induction cs as [| c cs IH]; intros m Hid Hinc; [reflexivity |].
  apply Forall_cons in Hid as [Hc Hid]. rewrite record_cons in *.
  cbn [feed]. unfold onAnimationEnd. rewrite Hc.
  destruct (isAnimationComplete (<[c_value c:=_]> (default ∅ (m !! id))))
    eqn:E.
  { apply (record_complete_mono cs) in E. unfold entry in Hinc. congruence. }
  fold (entry c) in *.
  set (r1 := <[c_value c := entry c]> (default ∅ (m !! id))) in *.
  rewrite (IH (<[id := r1]> m)); rewrite ?lookup_insert_eq; try assumption.
  simpl. destruct cs; [reflexivity |]. now rewrite insert_insert_eq.
Qed.

(** The completion that supplies the last missing target dispatches the
    aggregated call and removes the record. *)
Lemma feed_completing id cs c m :
  Forall (fun c => c_interactionId c = id) (cs ++ [c]) ->
  let r0 := default ∅ (m !! id) in
  isAnimationComplete (record cs r0) = false ->
  isAnimationComplete (record (cs ++ [c]) r0) = true ->
  feed true (cs ++ [c]) m =
  (delete id m,
   [onResetAnimationEnd_call (allFinished (record (cs ++ [c]) r0))
                             (record (cs ++ [c]) r0)]).
Proof.
  intros Hid r0 Hinc Hcomp. apply Forall_app in Hid as [Hid Hc].
  apply Forall_inv in Hc. simpl in Hc.
  rewrite feed_app, (feed_incomplete id) by assumption.
  fold r0. rewrite record_snoc in *.
  assert (Hm1 : default ∅ (match cs with
                           | [] => m
                           | _ :: _ => <[id := record cs r0]> m
                           end !! id) = record cs r0).
  { destruct cs; [reflexivity |]. now rewrite lookup_insert_eq. }
  cbn [feed]. unfold onAnimationEnd. rewrite Hc, Hm1. fold (entry c).
  rewrite Hcomp. f_equal.
  destruct cs; [reflexivity |]. apply delete_insert_eq.
Qed.

Lemma feed_without_callback cs m : feed false cs m = (m, []).
Proof.
  induction cs as [| c cs IH]; [reflexivity |].
  cbn [feed]. unfold onAnimationEnd. now rewrite IH.
Qed.

Lemma values_NoDup cs :
  c_value <$> cs ≡ₚ ANIMATION_VALUES -> NoDup (c_value <$> cs).
Proof.
  intros Hp. rewrite Hp. unfold ANIMATION_VALUES.
  apply (bool_decide_unpack _). vm_compute. exact I.
Qed.

(** A proper prefix of completions with pairwise different targets
    leaves the record short of the target that comes next. *)
Lemma prefix_incomplete cs k :
  NoDup (c_value <$> cs) -> (k < length cs)%nat ->
  isAnimationComplete (record (take k cs) ∅) = false.
Proof.
  intros Hnd Hk. apply isAnimationComplete_false.
  destruct (lookup_lt_is_Some_2 cs k Hk) as [c Hc].
  exists (c_value c). rewrite record_lookup_notin; [apply lookup_empty |].
  rewrite <- (take_drop_middle cs k c Hc), fmap_app, fmap_cons in Hnd.
  apply NoDup_app in Hnd as (_ & Hdisj & _).
  intros Hin. apply (Hdisj _ Hin). left.
Qed.

(** The five targets, each completed once, in any order: one call, with
    the record of all five, and the map is back to what it was. *)
Lemma feed_all_five id m cs :
  m !! id = None ->
  Forall (fun c => c_interactionId c = id) cs ->
  c_value <$> cs ≡ₚ ANIMATION_VALUES ->
  feed true cs m =
  (m, [onResetAnimationEnd_call (allFinished (record cs ∅)) (record cs ∅)]).
Proof.
  intros Hm Hid Hp.
  pose proof (values_NoDup cs Hp) as Hnd.
  assert (Hlen : length cs = 5%nat).
  { now rewrite <- (length_fmap c_value), Hp. }
  assert (Hr0 : default ∅ (m !! id) = ∅) by now rewrite Hm.
  destruct cs as [| c cs _] using rev_ind; [discriminate Hlen |].
  rewrite length_app in Hlen. simpl in Hlen.
  assert (Hinc : isAnimationComplete (record cs ∅) = false).
  { replace cs with (take 4 (cs ++ [c]))
      by (rewrite take_app_le, take_ge by lia; reflexivity).
    apply prefix_incomplete; [assumption |].
    rewrite length_app. simpl. lia. }
  assert (Hcomp : isAnimationComplete (record (cs ++ [c]) ∅) = true).
  { apply isAnimationComplete_true. intros v.
    apply record_lookup_in. rewrite Hp. apply all_ANIMATION_VALUES. }
  rewrite (feed_completing id); rewrite ?Hr0; try assumption.
  now rewrite delete_id by assumption.
Qed.

(** C1: with the reset-completion callback supplied and no record yet for
    the session, feeding the completions of the five targets in any order
    dispatches nothing for the first four, and with the fifth dispatches
    the callback once; it receives [completed = true] exactly when every
    completion had [finished = true], together with the record of all
    five; afterwards the map holds no record for the session (it is the
    map from before). *)
Theorem aggregator_fires_once_after_fifth
    (id : string) (m : InteractionEndValues) (cs : list Completion) :
  m !! id = None ->
  Forall (fun c => c_interactionId c = id) cs ->
  c_value <$> cs ≡ₚ ANIMATION_VALUES ->
  (forall k, (k < 5)%nat -> snd (feed true (take k cs) m) = []) /\
  exists completed values,
    feed true cs m = (m, [onResetAnimationEnd_call completed values]) /\
    (completed = true <-> forall c, c ∈ cs -> c_finished c = Some true) /\
    (forall c, c ∈ cs -> values !! c_value c = Some (entry c)) /\
    fst (feed true cs m) !! id = None.
Proof.
  intros Hm Hid Hp.
  pose proof (values_NoDup cs Hp) as Hnd.
  assert (Hlen : length cs = 5%nat).
  { now rewrite <- (length_fmap c_value), Hp. }
  assert (Hr0 : default ∅ (m !! id) = ∅) by now rewrite Hm.
  split.
  - intros k Hk.
    rewrite (feed_incomplete id).
    + reflexivity.
    + now apply Forall_take.
    + rewrite Hr0. apply prefix_incomplete; [assumption | lia].
  - set (R := record cs ∅).
    pose proof (feed_all_five id m cs Hm Hid Hp) as Hfeed. fold R in Hfeed.
    exists (allFinished R), R. split; [exact Hfeed |]. split; [| split].
    + rewrite allFinished_true. split.
      * intros H c' Hc'.
        apply (H (c_value c') (entry c')). now apply record_lookup_NoDup.
      * intros H v e Hve.
        assert (Hv : v ∈ c_value <$> cs).
        { rewrite Hp. apply all_ANIMATION_VALUES. }
        apply list_elem_of_fmap in Hv as (c' & -> & Hc').
        unfold R in Hve. rewrite (record_lookup_NoDup _ _ c') in Hve
          by assumption.
        injection Hve as <-. now apply H.
    + intros c' Hc'. now apply record_lookup_NoDup.
    + now rewrite Hfeed.
Qed.

(** C10: without the reset-completion callback, [onAnimationEnd] changes
    nothing and dispatches nothing, for every input; so no sequence of
    completions ever creates, updates or deletes a record, and a map that
    is empty stays empty. *)
Theorem aggregator_noop_without_callback
    (id : string) (v : ANIMATION_VALUE) (last : Q)
    (fin : option bool) (cur : option Q)
    (cs : list Completion) (m : InteractionEndValues) :
  onAnimationEnd false id v last fin cur m = (m, []) /\
  feed false cs m = (m, []) /\
  feed false cs ∅ = (∅, []).
Proof.
  split; [reflexivity |]. split; apply feed_without_callback.
Qed.

End Aggregator.

(** ** Gesture/transform engine *)

Tactic Notation "unfold_worklet" :=
  unfold exec, bind, ret, read, write, start, update, runOnJS,
    getInteractionId; cbn.

Tactic Notation "unfold_worklet" "in" hyp(H) :=
  unfold exec, bind, ret, read, write, start, update, runOnJS,
    getInteractionId in H; cbn in H.

Lemma Ref_eqb_refl (r : Ref) : Ref_eqb r r = true.
Proof. now destruct r. Qed.

Lemma Ref_eqb_neq (r r' : Ref) : r <> r' -> Ref_eqb r r' = false.
Proof. destruct r, r'; intros H; first [reflexivity | now elim H]. Qed.

(** A cell other than the ones written: by cases on which cell it is. *)
Ltac other_cell r :=
  destruct r; first [reflexivity | congruence].

Section Engine.

Variable props : Props.

Local Open Scope Q_scope.

Lemma sum_two (a b : SharedValue) : sum [a; b] == value a + value b.
Proof. unfold sum. simpl. ring. Qed.

(** C7: [zoom] with a target scale above 1 notifies the observer with
    [ZOOM_IN] and starts timing animations of scale to the target and of
    the focal offsets to [(center - point) * (scale - 1)], leaving every
    other cell, translate included, as it was; with a target scale of at
    most 1 it notifies the observer with [ZOOM_OUT] and then does what
    [reset] does. *)
Theorem zoom_in_or_reset (event : ZoomEvent) (w : World) :
  (1 < zoom_scale event ->
   let w' := exec (zoom props event) w in
   jsCalls w' = jsCalls w ++ [onProgrammaticZoom_call ZOOM_IN] /\
   cells w' scale =
     animate (withTiming (zoom_scale event) None) (cells w scale) /\
   cells w' focal_x =
     animate (withTiming ((center_x props - zoom_x event)
                          * (zoom_scale event - 1)) None)
             (cells w focal_x) /\
   cells w' focal_y =
     animate (withTiming ((center_y props - zoom_y event)
                          * (zoom_scale event - 1)) None)
             (cells w focal_y) /\
   (forall r, r <> scale -> r <> focal_x -> r <> focal_y ->
              cells w' r = cells w r) /\
   endValues w' = endValues w /\
   interactionId w' = interactionId w) /\
  (zoom_scale event <= 1 ->
   let w0 := exec (runOnJS (onProgrammaticZoom_call ZOOM_OUT)) w in
   jsCalls w0 = jsCalls w ++ [onProgrammaticZoom_call ZOOM_OUT] /\
   zoom props event w = reset w0 /\
   jsCalls (exec (zoom props event) w) = jsCalls w0).
Proof.
  split.
  - intros Hs. apply Qgtb_true in Hs. unfold zoom. rewrite Hs.
    unfold_worklet. repeat split. intros r H1 H2 H3. other_cell r.
  - intros Hs. apply Qgtb_false in Hs. unfold zoom. rewrite Hs.
    split; [reflexivity |]. split; reflexivity.
Qed.

(** C6: with the scale above 1, [moveIntoView] looks at each axis on its
    own, the limit being [R = width * (scale - 1) / 2] for x and
    [B = height * (scale - 1) / 2] for y.  When translate + focal on the
    axis is above the limit, translate is animated to the limit and focal
    to 0; when it is below minus the limit, translate is animated to minus
    the limit and focal to 0; when it is within the limits, the cells of
    the axis are left as they were.  Scale and every other cell are never
    written.  With the scale at most 1, [moveIntoView] is [reset]. *)
Theorem moveIntoView_per_axis (w : World) :
  let w' := exec (moveIntoView props) w in
  let R := width props * (value (cells w scale) - 1) / 2 in
  let B := height props * (value (cells w scale) - 1) / 2 in
  let totalX := value (cells w translate_x) + value (cells w focal_x) in
  let totalY := value (cells w translate_y) + value (cells w focal_y) in
  (1 < value (cells w scale) ->
   (forall r, r <> translate_x -> r <> focal_x ->
              r <> translate_y -> r <> focal_y ->
              cells w' r = cells w r) /\
   cells w' scale = cells w scale /\
   jsCalls w' = jsCalls w /\
   endValues w' = endValues w /\
   (R < totalX ->
    cells w' translate_x = animate (withTiming R None) (cells w translate_x) /\
    cells w' focal_x = animate (withTiming 0 None) (cells w focal_x)) /\
   (totalX <= R -> totalX < - R ->
    cells w' translate_x =
      animate (withTiming (- R) None) (cells w translate_x) /\
    cells w' focal_x = animate (withTiming 0 None) (cells w focal_x)) /\
   (- R <= totalX <= R ->
    cells w' translate_x = cells w translate_x /\
    cells w' focal_x = cells w focal_x) /\
   (B < totalY ->
    cells w' translate_y = animate (withTiming B None) (cells w translate_y) /\
    cells w' focal_y = animate (withTiming 0 None) (cells w focal_y)) /\
   (totalY <= B -> totalY < - B ->
    cells w' translate_y =
      animate (withTiming (- B) None) (cells w translate_y) /\
    cells w' focal_y = animate (withTiming 0 None) (cells w focal_y)) /\
   (- B <= totalY <= B ->
    cells w' translate_y = cells w translate_y /\
    cells w' focal_y = cells w focal_y)) /\
  (value (cells w scale) <= 1 -> moveIntoView props w = reset w).
Proof.
  intros w' R B totalX totalY. split.
  - intros Hs. apply Qgtb_true in Hs.
    pose proof (sum_two (cells w translate_x) (cells w focal_x)) as HX.
    pose proof (sum_two (cells w translate_y) (cells w focal_y)) as HY.
    fold totalX in HX. fold totalY in HY.
    remember (exec (moveIntoView props) w) as w1 eqn:Hw1. subst w'.
    unfold moveIntoView, limits_right, limits_bottom, sum2 in Hw1.
    unfold exec, bind, read in Hw1. cbn beta iota in Hw1. rewrite Hs in Hw1.
    change (limits.right (width props) (cells w scale)) with R in Hw1.
    change (limits.bottom (height props) (cells w scale)) with B in Hw1.
    destruct (Qgtb (sum [cells w translate_x; cells w focal_x]) R) eqn:EX1;
      [apply Qgtb_true in EX1 | apply Qgtb_false in EX1];
      (destruct (Qltb (sum [cells w translate_x; cells w focal_x]) (- R))
         eqn:EX2; [apply Qltb_true in EX2 | apply Qltb_false in EX2]);
      (destruct (Qgtb (sum [cells w translate_y; cells w focal_y]) B) eqn:EY1;
         [apply Qgtb_true in EY1 | apply Qgtb_false in EY1]);
      (destruct (Qltb (sum [cells w translate_y; cells w focal_y]) (- B))
         eqn:EY2; [apply Qltb_true in EY2 | apply Qltb_false in EY2]);
      rewrite ?HX, ?HY in *; unfold_worklet in Hw1; subst w1; cbn;
      (split; [intros r H1 H2 H3 H4; other_cell r |]);
      repeat split; intros; repeat split; try reflexivity; exfalso; lra.
  - intros Hs. apply Qgtb_false in Hs.
    unfold moveIntoView, bind, read at 1. cbn beta iota. now rewrite Hs.
Qed.

Lemma clamp_within (v lo hi : Q) : lo <= v <= hi -> clamp v lo hi == v.
Proof.
  intros [Hlo Hhi]. unfold clamp.
  assert (Hmax : Qmax lo v == v) by now apply Q.max_r.
  rewrite Q.min_l; [exact Hmax | now rewrite Hmax].
Qed.

(** C2: a pinch update sets scale to
    [clamp(savedScale * event.scale, minScale, maxScale)] and, on each
    axis, focal to
    [savedFocal + (center - initialFocal) * (scale - savedScale)] with
    the clamped scale.  In particular, from [savedScale = 1] and
    [savedFocal = 0], scaling to an [s] within the scale bounds gives
    scale [s] and focal [(center - initialFocal) * (s - 1)]. *)
Theorem pinch_update_reanchors (event : PinchEvent) (w : World) :
  let w' := exec (pinchGesture_onUpdate props event) w in
  let s' := clamp (value (cells w savedScale) * pinch_scale event)
                  (minScale props) (maxScale props) in
  (cells w' scale = useSharedValue s' /\
   cells w' focal_x =
     useSharedValue
       (value (cells w savedFocal_x)
        + (center_x props - value (cells w initialFocal_x))
          * (s' - value (cells w savedScale))) /\
   cells w' focal_y =
     useSharedValue
       (value (cells w savedFocal_y)
        + (center_y props - value (cells w initialFocal_y))
          * (s' - value (cells w savedScale))) /\
   (forall r, r <> scale -> r <> focal_x -> r <> focal_y ->
              cells w' r = cells w r) /\
   jsCalls w' = jsCalls w) /\
  (forall s : Q,
     value (cells w savedScale) == 1 ->
     value (cells w savedFocal_x) == 0 ->
     value (cells w savedFocal_y) == 0 ->
     pinch_scale event == s ->
     minScale props <= s <= maxScale props ->
     value (cells w' scale) == s /\
     value (cells w' focal_x)
       == (center_x props - value (cells w initialFocal_x)) * (s - 1) /\
     value (cells w' focal_y)
       == (center_y props - value (cells w initialFocal_y)) * (s - 1)).
Proof.
  intros w' s'.
  assert (Hgen :
    cells w' scale = useSharedValue s' /\
    cells w' focal_x =
      useSharedValue
        (value (cells w savedFocal_x)
         + (center_x props - value (cells w initialFocal_x))
           * (s' - value (cells w savedScale))) /\
    cells w' focal_y =
      useSharedValue
        (value (cells w savedFocal_y)
         + (center_y props - value (cells w initialFocal_y))
           * (s' - value (cells w savedScale)))).
  { subst w' s'. unfold pinchGesture_onUpdate. unfold_worklet.
    repeat split. }
  split.
  - destruct Hgen as (H1 & H2 & H3). repeat split; try assumption.
    + intros r Hr1 Hr2 Hr3. subst w'. unfold pinchGesture_onUpdate.
      unfold_worklet. other_cell r.
  - intros s Hsaved Hfx Hfy Hev Hrange.
    destruct Hgen as (-> & -> & ->). simpl.
    assert (Hs' : s' == s).
    { assert (Hprod : value (cells w savedScale) * pinch_scale event == s)
        by (rewrite Hsaved, Hev; ring).
      subst s'. rewrite clamp_within; [exact Hprod |].
      destruct Hrange. split; lra. }
    rewrite Hs', Hsaved, Hfx, Hfy. repeat split; ring.
Qed.

(** C5: a touch sequence on the pan-only recognizer that lands while the
    scale is at most 1 fails the recognizer in [onTouchesDown]; whatever
    the sequence goes on to contain, no handler of the recognizer runs:
    the transform state is what it was, and neither the pan-start nor the
    pan-end callback is dispatched. *)
Theorem panOnly_fails_when_not_zoomed (w : World) (ts : list PanTouch) :
  value (cells w scale) <= 1 ->
  panOnlyGesture_sequence props UNDETERMINED (TouchesDown :: ts) w
    = (FAILED, w) /\
  panOnlyGesture_onTouchesDown BEGAN w = (FAILED, w) /\
  let w' := exec (panOnlyGesture_sequence props UNDETERMINED
                    (TouchesDown :: ts)) w in
  (forall r, cells w' r = cells w r) /\
  jsCalls w' = jsCalls w.
Proof.
  intros Hs. apply Qleb_true in Hs.
  assert (Hdown : panOnlyGesture_onTouchesDown BEGAN w = (FAILED, w)).
  { unfold panOnlyGesture_onTouchesDown, bind, read. now rewrite Hs. }
  assert (Hfailed : forall ts' w0,
            panOnlyGesture_sequence props FAILED ts' w0 = (FAILED, w0)).
  { induction ts' as [| t ts' IH]; intros w0; [reflexivity |].
    cbn [panOnlyGesture_sequence]. unfold bind.
    destruct t; cbn; apply IH. }
  assert (Hseq : panOnlyGesture_sequence props UNDETERMINED
                   (TouchesDown :: ts) w = (FAILED, w)).
  { cbn [panOnlyGesture_sequence panOnlyGesture_deliver]. unfold bind at 1.
    rewrite Hdown. apply Hfailed. }
  split; [exact Hseq |]. split; [exact Hdown |].
  unfold exec. rewrite Hseq. split; reflexivity.
Qed.

(** *** Pan release *)

Lemma pan_onEnd_same (event : PanEvent) (success : bool) (w : World) :
  panWhilePinchingGesture_onEnd props event success w
  = panOnlyGesture_onEnd props event success w.
Proof. reflexivity. Qed.

(** C4, as the code has it: when a pan ends with the scale above 1 and
    double tap enabled, on either pan recognizer, nothing is dispatched
    at once and each axis of translate gets a decay animation.  The end
    of the x decay dispatches the pan-end completion exactly when
    [velocityX >= velocityY], the end of the y decay exactly when
    [velocityY > velocityX], the velocities compared with their signs;
    so whichever decay ends first, the two together dispatch it exactly
    once. *)
Theorem pan_release_dispatches_once
    (event : PanEvent) (success : bool) (w : World)
    (finX finY : bool) (endX endY : Q) :
  1 < value (cells w scale) ->
  isDoubleTapEnabled props = true ->
  let w1 := exec (panOnlyGesture_onEnd props event success) w in
  let fires := [onPanEnded_call event success] in
  exec (panWhilePinchingGesture_onEnd props event success) w = w1 /\
  jsCalls w1 = jsCalls w /\
  (exists cfg, animation (cells w1 translate_x)
               = Some (withDecay cfg (Some (DecayEndX event success)))) /\
  (exists cfg, animation (cells w1 translate_y)
               = Some (withDecay cfg (Some (DecayEndY event success)))) /\
  (velocityY event <= velocityX event ->
   jsCalls (exec (animationEnds props translate_x finX endX) w1)
     = jsCalls w ++ fires /\
   jsCalls (exec (animationEnds props translate_y finY endY) w1)
     = jsCalls w) /\
  (velocityX event < velocityY event ->
   jsCalls (exec (animationEnds props translate_x finX endX) w1)
     = jsCalls w /\
   jsCalls (exec (animationEnds props translate_y finY endY) w1)
     = jsCalls w ++ fires) /\
  jsCalls (exec (animationEnds props translate_y finY endY)
             (exec (animationEnds props translate_x finX endX) w1))
    = jsCalls w ++ fires /\
  jsCalls (exec (animationEnds props translate_x finX endX)
             (exec (animationEnds props translate_y finY endY) w1))
    = jsCalls w ++ fires.
Proof.
  intros Hs Htap w1 fires. apply Qgtb_true in Hs.
  split; [unfold exec; now rewrite pan_onEnd_same |].
  subst w1 fires.
  remember (exec (panOnlyGesture_onEnd props event success) w) as w1 eqn:Hw1.
  unfold panOnlyGesture_onEnd, limits_right, limits_bottom in Hw1.
  unfold exec, bind, read in Hw1. cbn beta iota in Hw1.
  rewrite Hs, Htap in Hw1. unfold_worklet in Hw1. subst w1.
  unfold animationEnds, runCallback. unfold_worklet.
  split; [reflexivity |].
  split; [eexists; reflexivity |]. split; [eexists; reflexivity |].
  destruct (Qlt_le_dec (velocityX event) (velocityY event)) as [Hlt | Hle].
  - assert (EX : Qgeb (velocityX event) (velocityY event) = false)
      by now apply Qgeb_false.
    assert (EY : Qgtb (velocityY event) (velocityX event) = true)
      by now apply Qgtb_true.
    repeat (progress (rewrite ?EX, ?EY; cbn)).
    repeat split; intros; try reflexivity.
    all: exfalso; eapply Qlt_not_le; eassumption.
  - assert (EX : Qgeb (velocityX event) (velocityY event) = true)
      by now apply Qgeb_true.
    assert (EY : Qgtb (velocityY event) (velocityX event) = false)
      by now apply Qgtb_false.
    repeat (progress (rewrite ?EX, ?EY; cbn)).
    repeat split; intros; try reflexivity.
    all: exfalso; eapply Qlt_not_le; eassumption.
Qed.

(** *** Reset *)

(** What the hook's [onAnimationEnd] does to the world. *)
Lemma onAnimationEnd_world (id : string) (v : ANIMATION_VALUE) (last : Q)
    (fin : option bool) (cur : option Q) (w : World) :
  let out := useAnimationEnd.onAnimationEnd (onResetAnimationEnd props)
               id v last fin cur (endValues w) in
  onAnimationEnd props id v last fin cur w =
  (tt, {| cells := cells w;
          interactionId := interactionId w;
          endValues := fst out;
          jsCalls := jsCalls w ++ snd out |}).
Proof.
  intros out. unfold onAnimationEnd. fold out. now destruct out.
Qed.

Import useAnimationEnd.

Lemma exec_bind {A B} (m : Worklet A) (k : A -> Worklet B) (w : World) :
  exec (bind m k) w = exec (k (fst (m w))) (exec m w).
Proof. unfold exec, bind. now destruct (m w). Qed.

Lemma cellOf_inj (v1 v2 : ANIMATION_VALUE) : cellOf v1 = cellOf v2 -> v1 = v2.
Proof. destruct v1, v2; simpl; congruence. Qed.

Lemma reset_starts (w : World) (v : ANIMATION_VALUE) :
  cells (exec reset w) (cellOf v) =
  animate (withTiming (resetTarget v)
             (Some (ResetEnd (interactionId w) v (value (cells w (cellOf v))))))
          (cells w (cellOf v)).
Proof. destruct v; reflexivity. Qed.

Lemma timingSettles_reset (r : Ref) (w : World) (t : Q)
    (id : string) (v : ANIMATION_VALUE) (last : Q) :
  animation (cells w r) = Some (withTiming t (Some (ResetEnd id v last))) ->
  let w' := exec (timingSettles props r) w in
  let out := useAnimationEnd.onAnimationEnd (onResetAnimationEnd props)
               id v last (Some true) (Some t) (endValues w) in
  cells w' r = useSharedValue t /\
  (forall r', r' <> r -> cells w' r' = cells w r') /\
  interactionId w' = interactionId w /\
  endValues w' = fst out /\
  jsCalls w' = jsCalls w ++ snd out.
Proof.
  intros H w' out. subst w'.
  unfold timingSettles, exec. rewrite H.
  unfold animationEnds. rewrite H. cbn [callbackOf runCallback].
  unfold bind, write, update. rewrite onAnimationEnd_world.
  cbn [endValues jsCalls]. fold out. destruct out as [m' calls]. cbn.
  split; [now rewrite Ref_eqb_refl |].
  split; [| repeat split].
  intros r' Hr'. now rewrite Ref_eqb_neq by exact Hr'.
Qed.

(** Letting the animations that [reset] started end, in a given order,
    feeds the aggregator the corresponding completions in that order. *)
Lemma settle_feed (id : string) (last : ANIMATION_VALUE -> Q)
    (order : list ANIMATION_VALUE) :
  NoDup order ->
  forall w : World,
    (forall v, v ∈ order ->
       animation (cells w (cellOf v)) =
       Some (withTiming (resetTarget v) (Some (ResetEnd id v (last v))))) ->
    let cs := (fun v => {| c_interactionId := id; c_value := v;
                           c_lastValue := last v; c_finished := Some true;
                           c_current := Some (resetTarget v) |}) <$> order in
    let w' := exec (settle props (cellOf <$> order)) w in
    let out := feed (onResetAnimationEnd props) cs (endValues w) in
    (forall v, v ∈ order -> cells w' (cellOf v) = useSharedValue (resetTarget v)) /\
    (forall r, r ∉ cellOf <$> order -> cells w' r = cells w r) /\
    interactionId w' = interactionId w /\
    endValues w' = fst out /\
    jsCalls w' = jsCalls w ++ snd out.
Proof.
  induction 1 as [| v order Hv Hnd IH]; intros w Hpending.
  - cbn. repeat split; try reflexivity.
    + intros v Hv. now apply elem_of_nil in Hv.
    + now rewrite app_nil_r.
  - cbn zeta. rewrite !fmap_cons. cbn [settle feed].
    rewrite exec_bind.
    destruct (timingSettles_reset (cellOf v) w (resetTarget v) id v (last v))
      as (Hcell & Hother & Hid & Hend & Hcalls).
    { apply Hpending. left. }
    cbn [c_interactionId c_value c_lastValue c_finished c_current].
    set (w1 := exec (timingSettles props (cellOf v)) w) in *.
    destruct (useAnimationEnd.onAnimationEnd (onResetAnimationEnd props)
                id v (last v) (Some true) (Some (resetTarget v)) (endValues w))
      as [m1 calls1]. cbn [fst snd] in Hend, Hcalls.
    assert (Hfresh : cellOf v ∉ cellOf <$> order).
    { intros (v' & Heq & Hin)%list_elem_of_fmap.
      apply cellOf_inj in Heq. now subst v'. }
    destruct (IH w1) as (Hcells' & Hother' & Hid' & Hend' & Hcalls').
    { intros v' Hv'. rewrite Hother; [apply Hpending; now right |].
      intros Heq. apply cellOf_inj in Heq. now subst v'. }
    rewrite Hend in Hend', Hcalls'.
    destruct (feed (onResetAnimationEnd props) _ m1) as [m2 calls2].
    cbn [fst snd] in *. repeat split.
    + intros v' [-> | Hv']%elem_of_cons.
      * now rewrite Hother' by exact Hfresh.
      * now apply Hcells'.
    + intros r [Hr1 Hr2]%not_elem_of_cons.
      rewrite Hother' by exact Hr2. now apply Hother.
    + congruence.
    + exact Hend'.
    + now rewrite Hcalls', Hcalls, app_assoc.
Qed.

(** C3: [reset] reads the interaction id, at once sets [savedScale] to 1
    and [initialFocal], [savedFocal] and [savedTranslate] to 0, and
    starts five timing animations, one on each of scale (to 1), focal x,
    focal y, translate x and translate y (to 0), each with a completion
    routed to the aggregator under that id, its target name and the value
    the cell had.  Provided the reset-completion callback was supplied
    and the aggregator holds no record for the id, once the five
    animations have ended uninterrupted, in whatever order, every cell is
    back at its initial value (scale 1, focal and translate 0) and the
    reset-completion callback has been dispatched exactly once, with
    [finished = true]. *)
Theorem reset_settles (w : World) (order : list ANIMATION_VALUE) :
  onResetAnimationEnd props = true ->
  endValues w !! interactionId w = None ->
  order ≡ₚ ANIMATION_VALUES ->
  let id := interactionId w in
  let w1 := exec reset w in
  let w2 := exec (settle props (cellOf <$> order)) w1 in
  (cells w1 savedScale = useSharedValue 1 /\
   cells w1 initialFocal_x = useSharedValue 0 /\
   cells w1 initialFocal_y = useSharedValue 0 /\
   cells w1 savedFocal_x = useSharedValue 0 /\
   cells w1 savedFocal_y = useSharedValue 0 /\
   cells w1 savedTranslate_x = useSharedValue 0 /\
   cells w1 savedTranslate_y = useSharedValue 0 /\
   (forall v,
      cells w1 (cellOf v) =
      animate (withTiming (resetTarget v)
                 (Some (ResetEnd id v (value (cells w (cellOf v))))))
              (cells w (cellOf v))) /\
   jsCalls w1 = jsCalls w /\
   endValues w1 = endValues w /\
   interactionId w1 = id) /\
  (cells w2 scale = useSharedValue 1 /\
   cells w2 focal_x = useSharedValue 0 /\
   cells w2 focal_y = useSharedValue 0 /\
   cells w2 translate_x = useSharedValue 0 /\
   cells w2 translate_y = useSharedValue 0 /\
   (forall r, cells w2 r = cells initialWorld r) /\
   (exists values,
      jsCalls w2 = jsCalls w ++ [onResetAnimationEnd_call true values] /\
      forall v, values !! v =
                Some {| lastValue := value (cells w (cellOf v));
                        finished := Some true;
                        current := Some (resetTarget v) |}) /\
   endValues w2 = endValues w).
Proof.
  intros Hcb Hfresh Hp id w1 w2.
  assert (Hnd : NoDup order).
  { rewrite Hp. apply (bool_decide_unpack _). vm_compute. exact I. }
  assert (Hall : forall v, v ∈ order).
  { intros v. rewrite Hp. apply all_ANIMATION_VALUES. }
  split.
  { repeat split; try reflexivity. intros v. apply reset_starts. }
  set (last := fun v => value (cells w (cellOf v))).
  set (mk := fun v => {| c_interactionId := id; c_value := v;
                         c_lastValue := last v; c_finished := Some true;
                         c_current := Some (resetTarget v) |}).
  destruct (settle_feed id last order Hnd w1)
    as (Hcells & Hother & _ & Hend & Hcalls).
  { intros v _. unfold w1. now rewrite reset_starts. }
  fold mk w2 in Hend, Hcalls. rewrite Hcb in Hend, Hcalls.
  change (endValues w1) with (endValues w) in Hend, Hcalls.
  change (jsCalls w1) with (jsCalls w) in Hcalls.
  assert (Hvals : c_value <$> (mk <$> order) = order).
  { rewrite <- list_fmap_compose. apply list_fmap_id. }
  assert (Hnd' : NoDup (c_value <$> (mk <$> order))) by now rewrite Hvals.
  rewrite (feed_all_five id) in Hend, Hcalls;
    [ | assumption
      | apply Forall_fmap, Forall_forall; reflexivity
      | now rewrite Hvals
      | assumption
      | apply Forall_fmap, Forall_forall; reflexivity
      | now rewrite Hvals ].
  cbn [fst snd] in Hend, Hcalls.
  assert (Hlookup : forall v, record (mk <$> order) ∅ !! v
                              = Some (entry (mk v))).
  { intros v. apply (record_lookup_NoDup (mk <$> order) ∅ (mk v) Hnd').
    apply list_elem_of_fmap_2, Hall. }
  assert (Hcell : forall v, cells w2 (cellOf v) = useSharedValue (resetTarget v)).
  { intros v. apply Hcells, Hall. }
  split; [apply (Hcell SCALE) |]. split; [apply (Hcell FOCAL_X) |].
  split; [apply (Hcell FOCAL_Y) |]. split; [apply (Hcell TRANSLATE_X) |].
  split; [apply (Hcell TRANSLATE_Y) |].
  split; [| split; [| exact Hend]].
  - assert (Hrest : forall r, (forall v, r <> cellOf v) ->
                              cells w2 r = cells w1 r).
    { intros r Hr. apply Hother.
      intros (v & -> & _)%list_elem_of_fmap. now apply (Hr v). }
    intros r.
    destruct r;
      first [ apply (Hcell SCALE) | apply (Hcell FOCAL_X)
            | apply (Hcell FOCAL_Y) | apply (Hcell TRANSLATE_X)
            | apply (Hcell TRANSLATE_Y)
            | rewrite Hrest by (intros []; discriminate); reflexivity ].
  - exists (record (mk <$> order) ∅). split; [| exact Hlookup].
    rewrite Hcalls. do 3 f_equal.
    apply allFinished_true. intros v e Hve.
    rewrite Hlookup in Hve. now injection Hve as <-.
Qed.

End Engine.

(** ** The properties at sample inputs *)

Section Samples.

Import useAnimationEnd.

Local Open Scope Q_scope.

(** Comparisons of concrete numbers, by evaluation. *)
Ltac evaluate :=
  vm_compute;
  first [ reflexivity | intro; discriminate | split; intro; discriminate ].

Lemma aggregator_fires_once_after_fifth_sample :
  (forall k, (k < 5)%nat ->
     snd (feed true (take k sampleCompletions) ∅) = []) /\
  exists completed values,
    feed true sampleCompletions ∅
      = (∅, [onResetAnimationEnd_call completed values]) /\
    (completed = true <->
     forall c, c ∈ sampleCompletions -> c_finished c = Some true) /\
    (forall c, c ∈ sampleCompletions ->
               values !! c_value c = Some (entry c)) /\
    fst (feed true sampleCompletions ∅) !! "1730000000000" = None.
Proof.
  apply (aggregator_fires_once_after_fifth "1730000000000" ∅
           sampleCompletions).
  - reflexivity.
  - repeat constructor.
  - apply (bool_decide_unpack _). vm_compute. exact I.
Defined.

Lemma pinch_update_reanchors_sample :
  let event := {| pinch_scale := 3; focalX := 100; focalY := 250 |} in
  let w := exec (pinchGesture_onStart event) (worldAt "" 1 0 0 0 0) in
  let w' := exec (pinchGesture_onUpdate sampleProps event) w in
  value (cells w' scale) == 3 /\
  value (cells w' focal_x) == (150 - 100) * (3 - 1) /\
  value (cells w' focal_y) == (200 - 250) * (3 - 1).
Proof.
  intros event w w'.
  apply (proj2 (pinch_update_reanchors sampleProps event w) 3);
    evaluate.
Defined.

Lemma reset_settles_sample :
  let w := worldAt "1730000000000" 2 30 (-40) 10 20 in
  let order := [TRANSLATE_Y; SCALE; FOCAL_Y; FOCAL_X; TRANSLATE_X] in
  let w2 := exec (settle sampleProps (cellOf <$> order)) (exec reset w) in
  cells w2 scale = useSharedValue 1 /\
  (forall r, cells w2 r = cells initialWorld r) /\
  exists values, jsCalls w2 = [onResetAnimationEnd_call true values].
Proof.
  intros w order w2.
  destruct (reset_settles sampleProps w order)
    as (_ & Hscale & _ & _ & _ & _ & Hcells & (values & Hcalls & _) & _).
  - reflexivity.
  - reflexivity.
  - apply (bool_decide_unpack _). vm_compute. exact I.
  - split; [exact Hscale |]. split; [exact Hcells |].
    exists values. exact Hcalls.
Defined.

Lemma pan_release_dispatches_once_sample :
  let w1 := exec (panOnlyGesture_onEnd sampleProps flingLeft true)
                 (worldAt "" 2 0 0 0 0) in
  jsCalls (exec (animationEnds sampleProps translate_y true 6)
             (exec (animationEnds sampleProps translate_x true (-150)) w1))
  = [onPanEnded_call flingLeft true].
Proof.
  intros w1.
  exact (proj1 (proj2 (proj2 (proj2 (proj2 (proj2 (proj2
           (pan_release_dispatches_once sampleProps flingLeft true
              (worldAt "" 2 0 0 0 0) true true (-150) 6
              eq_refl eq_refl)))))))).
Defined.

Lemma panOnly_fails_when_not_zoomed_sample :
  panOnlyGesture_sequence sampleProps UNDETERMINED
    [TouchesDown; Activate flingLeft; Move flingLeft; Release flingLeft true]
    initialWorld
  = (FAILED, initialWorld).
Proof.
  apply (panOnly_fails_when_not_zoomed sampleProps initialWorld
           [Activate flingLeft; Move flingLeft; Release flingLeft true]).
  evaluate.
Defined.

Lemma moveIntoView_per_axis_sample :
  (let w := worldAt "" 2 0 0 400 0 in
   cells (exec (moveIntoView sampleProps) w) scale = cells w scale) /\
  moveIntoView sampleProps initialWorld = reset initialWorld.
Proof.
  split.
  - intros w.
    apply (proj1 (moveIntoView_per_axis sampleProps w)). reflexivity.
  - apply (proj2 (moveIntoView_per_axis sampleProps initialWorld)).
    evaluate.
Defined.

Lemma zoom_in_or_reset_sample :
  (let event := {| zoom_scale := 3; zoom_x := 100; zoom_y := 250 |} in
   jsCalls (exec (zoom sampleProps event) initialWorld)
   = [onProgrammaticZoom_call ZOOM_IN]) /\
  (let event := {| zoom_scale := 1; zoom_x := 100; zoom_y := 250 |} in
   jsCalls (exec (zoom sampleProps event) initialWorld)
   = [onProgrammaticZoom_call ZOOM_OUT]).
Proof.
  split; intros event.
  - apply (proj1 (zoom_in_or_reset sampleProps event initialWorld)).
    reflexivity.
  - destruct (proj2 (zoom_in_or_reset sampleProps event initialWorld))
      as (H0 & _ & H).
    + evaluate.
    + rewrite H. exact H0.
Defined.

(** C4, as stated, fails: after the fling [flingUp] (10 along x, -1000
    along y) the end of the x decay dispatches the pan-end completion and
    the end of the y decay does not, although the release is a hundred
    times faster along y. *)
Lemma pan_end_dispatched_by_slower_axis :
  let w1 := exec (panOnlyGesture_onEnd sampleProps flingUp true)
                 (worldAt "" 2 0 0 0 0) in
  jsCalls (exec (animationEnds sampleProps translate_x true 3) w1)
    = [onPanEnded_call flingUp true] /\
  jsCalls (exec (animationEnds sampleProps translate_y true (-200)) w1)
    = [] /\
  speed (velocityX flingUp) < speed (velocityY flingUp).
Proof. vm_compute. repeat split. Qed.

End Samples.

(** * Further properties *)

(** ** clamp and sum *)

Section Utilities.

Local Open Scope Q_scope.

(** X1: with [min <= max], [clamp] lands in [[min, max]], returns a value
    that is already in range as it is, and sticks to the nearer bound for a
    value outside. *)
Theorem clamp_in_range (v lo hi : Q) :
  lo <= hi ->
  lo <= clamp v lo hi <= hi /\
  (lo <= v <= hi -> clamp v lo hi == v) /\
  (v <= lo -> clamp v lo hi == lo) /\
  (hi <= v -> clamp v lo hi == hi).
Proof.
  intros Hbounds. unfold clamp.
  destruct (Q.max_spec lo v) as [[Hc Hmax] | [Hc Hmax]];
    destruct (Q.min_spec (Qmax lo v) hi) as [[Hd Hmin] | [Hd Hmin]];
    repeat split; intros; lra.
Qed.

(** X2: with the bounds the wrong way round ([max < min]), [clamp] returns
    [max] whatever the value. *)
Theorem clamp_inverted_bounds (v lo hi : Q) :
  hi < lo -> clamp v lo hi == hi.
Proof.
  intros Hbounds. unfold clamp.
  destruct (Q.max_spec lo v) as [[Hc Hmax] | [Hc Hmax]];
    destruct (Q.min_spec (Qmax lo v) hi) as [[Hd Hmin] | [Hd Hmin]]; lra.
Qed.



End Utilities.

(** ** Pan counter, continued *)

Section PanCounterBalance.

Import usePanGestureCount.

Lemma starts_snoc (calls : list call) (k : call) :
  starts (calls ++ [k]) = starts calls + (if k is StartPan then 1 else 0).
Proof.
  unfold starts. rewrite List.filter_app, length_app.
  destruct k; simpl; lia.
Qed.

Lemma ends_snoc (calls : list call) (k : call) :
  ends (calls ++ [k]) = ends calls + (if k is EndPan then 1 else 0).
Proof.
  unfold ends. rewrite List.filter_app, length_app.
  destruct k; simpl; lia.
Qed.

Lemma run_snoc (calls : list call) (k : call) (c : Z) :
  run (calls ++ [k]) c = step (run calls c) k.
Proof. unfold run. now rewrite fold_left_app. Qed.

(** X4: the count is never below the number of [startPan] calls minus the
    number of [endPan] calls; and when no [endPan] ever comes without a
    pan that is still counted (every prefix of the sequence has at least
    as many starts as ends), the count is exactly that difference. *)
Theorem pan_count_balance (calls : list call) :
  starts calls - ends calls <= run calls initial /\
  ((forall n, ends (take n calls) <= starts (take n calls)) ->
   run calls initial = starts calls - ends calls).
Proof.
  split.
  - induction calls as [| k calls IH] using rev_ind; [reflexivity |].
    rewrite run_snoc, starts_snoc, ends_snoc.
    destruct k; unfold step, startPan, endPan; [lia |].
    destruct (0 <? run calls initial) eqn:E; [lia |].
    apply Z.ltb_ge in E.
    pose proof (run_nonneg calls initial ltac:(reflexivity)). lia.
  - induction calls as [| k calls IH] using rev_ind; intros Hpre;
      [reflexivity |].
    assert (Hcalls : run calls initial = starts calls - ends calls).
    { apply IH. intros n. specialize (Hpre (n `min` length calls)%nat).
      rewrite take_app_le in Hpre by lia.
      destruct (Nat.le_gt_cases n (length calls)) as [Hn | Hn].
      - now rewrite Nat.min_l in Hpre by exact Hn.
      - rewrite Nat.min_r, take_ge in Hpre by lia.
        now rewrite take_ge by lia. }
    specialize (Hpre (S (length calls))).
    rewrite take_ge in Hpre by (rewrite length_app; simpl; lia).
    rewrite starts_snoc, ends_snoc in Hpre.
    rewrite run_snoc, starts_snoc, ends_snoc, Hcalls.
    destruct k; unfold step, startPan, endPan; [lia |].
    destruct (0 <? starts calls - ends calls) eqn:E; [lia |].
    apply Z.ltb_ge in E. lia.
Qed.

End PanCounterBalance.

(** ** Animation completion aggregator, continued *)

Section AggregatorMore.

Import useAnimationEnd.

Implicit Types (r : PartialEndValues) (m : InteractionEndValues).
Implicit Types (c : Completion) (cs : list Completion).

Lemma record_lookup_latest cs1 c cs2 r :
  c_value c ∉ c_value <$> cs2 ->
  record (cs1 ++ c :: cs2) r !! c_value c = Some (entry c).
Proof.
  intros Hlater. unfold record. rewrite fold_left_app. cbn [fold_left].
  fold (record cs2 (<[c_value c := entry c]> (record cs1 r))).
  rewrite record_lookup_notin by exact Hlater. apply lookup_insert_eq.
Qed.

(** X5: completions of other sessions never touch the record of a session,
    with or without the reset-completion callback. *)
Theorem aggregator_sessions_independent
    (b : bool) (id : string) (cs : list Completion) (m : InteractionEndValues) :
  Forall (fun c => c_interactionId c <> id) cs ->
  fst (feed b cs m) !! id = m !! id.
Proof.
  revert m. induction cs as [| c cs IH]; intros m Hid; [reflexivity |].
  apply Forall_cons in Hid as [Hc Hid]. cbn [feed].
  destruct (onAnimationEnd b (c_interactionId c) (c_value c) (c_lastValue c)
              (c_finished c) (c_current c) m) as [m1 calls1] eqn:E.
  specialize (IH m1 Hid). destruct (feed b cs m1) as [m2 calls2].
  cbn [fst] in *. rewrite IH.
  unfold onAnimationEnd in E. destruct b; [| now injection E as <- _].
  destruct (isAnimationComplete _); injection E as <- _.
  - now apply lookup_delete_ne.
  - now apply lookup_insert_ne.
Qed.

(** X6: as long as some target has neither an entry in the record the map
    holds for the session nor a completion among those fed, nothing is
    dispatched, however many completions of the other targets arrive, and
    the map keeps the accumulated record of the session. *)
Theorem aggregator_keeps_partial_record
    (id : string) (m : InteractionEndValues)
    (cs : list Completion) (missing : ANIMATION_VALUE) :
  cs <> [] ->
  Forall (fun c => c_interactionId c = id) cs ->
  default ∅ (m !! id) !! missing = None ->
  missing ∉ c_value <$> cs ->
  feed true cs m = (<[id := record cs (default ∅ (m !! id))]> m, []).
Proof.
  intros Hne Hid Hstale Hfed.
  rewrite (feed_incomplete id cs m Hid).
  - now destruct cs.
  - apply isAnimationComplete_false. exists missing.
    now rewrite record_lookup_notin.
Qed.

(** X7: whatever record the map already holds for the session and whatever
    repetitions the completions contain, nothing is dispatched while the
    record is incomplete, and the completion that makes it complete
    dispatches the callback once and removes the record.  The record
    passed holds the latest completion of each target fed and the old
    entry of each target not fed, and [completed] is true exactly when
    every entry of it has [finished = true]. *)
Theorem aggregator_fires_when_record_completes
    (id : string) (m : InteractionEndValues)
    (pre : list Completion) (c : Completion) :
  Forall (fun c => c_interactionId c = id) (pre ++ [c]) ->
  let r0 := default ∅ (m !! id) in
  let R := record (pre ++ [c]) r0 in
  isAnimationComplete (record pre r0) = false ->
  isAnimationComplete R = true ->
  snd (feed true pre m) = [] /\
  feed true (pre ++ [c]) m
  = (delete id m, [onResetAnimationEnd_call (allFinished R) R]) /\
  (allFinished R = true <->
   forall v e, R !! v = Some e -> finished e = Some true) /\
  (forall cs1 c' cs2,
     pre ++ [c] = cs1 ++ c' :: cs2 -> c_value c' ∉ c_value <$> cs2 ->
     R !! c_value c' = Some (entry c')) /\
  (forall v, v ∉ c_value <$> (pre ++ [c]) -> R !! v = r0 !! v).
Proof.
  intros Hid r0 R Hinc Hcomp.
  split.
  { rewrite (feed_incomplete id); [reflexivity | | exact Hinc].
    now apply Forall_app in Hid as [Hid _]. }
  split; [now apply feed_completing |].
  split; [apply allFinished_true |].
  split.
  - intros cs1 c' cs2 Heq Hlater. unfold R. rewrite Heq.
    now apply record_lookup_latest.
  - intros v Hv. now apply record_lookup_notin.
Qed.

End AggregatorMore.

(** ** Interaction ids and layout *)

Section IdsAndLayout.

Local Open Scope Q_scope.

(** X8: after [updateInteractionId] the current id is the decimal
    rendering of the clock reading, whatever the id was; readings that
    differ give ids that differ, and equal readings give the same id. *)
Theorem interaction_ids_follow_the_clock (now now' : Z) (old old' : string) :
  useInteractionId.getInteractionId
    (useInteractionId.updateInteractionId now old) = pretty now /\
  (useInteractionId.updateInteractionId now old
   = useInteractionId.updateInteractionId now' old' <-> now = now').
Proof.
  split; [reflexivity |]. unfold useInteractionId.updateInteractionId. split.
  - apply (inj pretty).
  - now intros ->.
Qed.


End IdsAndLayout.

(** ** Pinch and pan worklets *)

Section PinchAndPan.

Variable props : Props.

Local Open Scope Q_scope.

Lemma clamp_bounds (v lo hi : Q) : lo <= hi -> lo <= clamp v lo hi <= hi.
Proof.
  intros Hbounds. unfold clamp.
  destruct (Q.max_spec lo v) as [[Hc Hmax] | [Hc Hmax]];
    destruct (Q.min_spec (Qmax lo v) hi) as [[Hd Hmin] | [Hd Hmin]];
    split; lra.
Qed.

(** The world a pinch update leaves, cell by cell. *)
Lemma pinch_update_cells (event : PinchEvent) (w : World) (r : Ref) :
  let s' := clamp (value (cells w savedScale) * pinch_scale event)
                  (minScale props) (maxScale props) in
  cells (exec (pinchGesture_onUpdate props event) w) r =
  match r with
  | scale => useSharedValue s'
  | focal_x =>
      useSharedValue
        (value (cells w savedFocal_x)
         + (center_x props - value (cells w initialFocal_x))
           * (s' - value (cells w savedScale)))
  | focal_y =>
      useSharedValue
        (value (cells w savedFocal_y)
         + (center_y props - value (cells w initialFocal_y))
           * (s' - value (cells w savedScale)))
  | _ => cells w r
  end.
Proof. destruct r; reflexivity. Qed.

Lemma pinchUpdates_cons (e : PinchEvent) (es : list PinchEvent) (w : World) :
  exec (pinchUpdates props (e :: es)) w
  = exec (pinchUpdates props es) (exec (pinchGesture_onUpdate props e) w).
Proof. unfold pinchUpdates. cbn [fold_right]. now rewrite exec_bind. Qed.

Lemma pinchUpdates_app (es es' : list PinchEvent) : forall w,
  exec (pinchUpdates props (es ++ es')) w
  = exec (pinchUpdates props es') (exec (pinchUpdates props es) w).
Proof.
  induction es as [| e es IH]; intros w; [reflexivity |].
  rewrite <- app_comm_cons, !pinchUpdates_cons. apply IH.
Qed.

Lemma pinchUpdates_frame (es : list PinchEvent) : forall w,
  let w' := exec (pinchUpdates props es) w in
  (forall r, r <> scale -> r <> focal_x -> r <> focal_y ->
             cells w' r = cells w r) /\
  jsCalls w' = jsCalls w /\ endValues w' = endValues w /\
  interactionId w' = interactionId w.
Proof.
  induction es as [| e es IH]; intros w; [now repeat split |].
  cbn zeta. rewrite pinchUpdates_cons.
  destruct (IH (exec (pinchGesture_onUpdate props e) w))
    as (Hcells & Hcalls & Hend & Hid).
  split; [| now rewrite Hcalls, Hend, Hid].
  intros r H1 H2 H3. rewrite Hcells by assumption.
  rewrite pinch_update_cells. destruct r; first [reflexivity | congruence].
Qed.

(** X10: with [minScale <= maxScale], a pinch update leaves the scale
    within [[minScale, maxScale]], whatever the event and the state. *)
Theorem pinch_keeps_scale_in_range (event : PinchEvent) (w : World) :
  minScale props <= maxScale props ->
  minScale props
  <= value (cells (exec (pinchGesture_onUpdate props event) w) scale)
  <= maxScale props.
Proof.
  intros Hbounds. rewrite pinch_update_cells. now apply clamp_bounds.
Qed.

(** X11: pinch updates do not accumulate: after any run of updates the
    state is the one the last update alone would have produced. *)
Theorem pinch_updates_last_wins
    (events : list PinchEvent) (event : PinchEvent) (w : World) :
  let w1 := exec (pinchUpdates props (events ++ [event])) w in
  let w2 := exec (pinchGesture_onUpdate props event) w in
  (forall r, cells w1 r = cells w2 r) /\
  jsCalls w1 = jsCalls w2 /\
  endValues w1 = endValues w2 /\
  interactionId w1 = interactionId w2.
Proof.
  cbn zeta. rewrite pinchUpdates_app, pinchUpdates_cons.
  destruct (pinchUpdates_frame events w) as (Hcells & Hcalls & Hend & Hid).
  set (w' := exec (pinchUpdates props events) w) in *.
  split; [| now repeat split].
  intros r. change (exec (pinchUpdates props []) ?x) with x.
  rewrite !pinch_update_cells.
  rewrite !(Hcells savedScale), !(Hcells savedFocal_x),
    !(Hcells savedFocal_y), !(Hcells initialFocal_x),
    !(Hcells initialFocal_y) by discriminate.
  destruct r; first [reflexivity | apply Hcells; discriminate].
Qed.

(** X12: a pinch whose focal point is the center of the container leaves
    the focal offset where it was when the pinch started, whatever the
    scale becomes. *)
Theorem pinch_at_center_keeps_focal
    (start update : PinchEvent) (w : World) :
  focalX start == center_x props ->
  focalY start == center_y props ->
  let w' := exec (pinchGesture_onUpdate props update)
                 (exec (pinchGesture_onStart start) w) in
  value (cells w' focal_x) == value (cells w focal_x) /\
  value (cells w' focal_y) == value (cells w focal_y).
Proof.
  intros Hx Hy w'. subst w'. rewrite !pinch_update_cells.
  change (value (cells (exec (pinchGesture_onStart start) w) savedFocal_x))
    with (value (cells w focal_x)).
  change (value (cells (exec (pinchGesture_onStart start) w) savedFocal_y))
    with (value (cells w focal_y)).
  change (value (cells (exec (pinchGesture_onStart start) w) initialFocal_x))
    with (focalX start).
  change (value (cells (exec (pinchGesture_onStart start) w) initialFocal_y))
    with (focalY start).
  cbn [value useSharedValue]. rewrite Hx, Hy. split; ring.
Qed.

(** X13: a pinch that starts with the scale within the bounds and reports
    a scale factor of 1 changes neither the scale nor the focal offset. *)
Theorem pinch_by_one_changes_nothing
    (start update : PinchEvent) (w : World) :
  minScale props <= value (cells w scale) <= maxScale props ->
  pinch_scale update == 1 ->
  let w' := exec (pinchGesture_onUpdate props update)
                 (exec (pinchGesture_onStart start) w) in
  value (cells w' scale) == value (cells w scale) /\
  value (cells w' focal_x) == value (cells w focal_x) /\
  value (cells w' focal_y) == value (cells w focal_y).
Proof.
  intros Hrange Hone w'. subst w'. rewrite !pinch_update_cells.
  change (value (cells (exec (pinchGesture_onStart start) w) savedScale))
    with (value (cells w scale)).
  change (value (cells (exec (pinchGesture_onStart start) w) savedFocal_x))
    with (value (cells w focal_x)).
  change (value (cells (exec (pinchGesture_onStart start) w) savedFocal_y))
    with (value (cells w focal_y)).
  cbn [value useSharedValue].
  assert (Hs : clamp (value (cells w scale) * pinch_scale update)
                     (minScale props) (maxScale props)
               == value (cells w scale)).
  { rewrite clamp_within; [rewrite Hone; ring |].
    rewrite Hone, Qmult_1_r. exact Hrange. }
  rewrite Hs. repeat split; ring.
Qed.

(** The world a pan update leaves, cell by cell. *)
Lemma pan_update_cells (event : PanEvent) (w : World) (r : Ref) :
  cells (exec (panWhilePinchingGesture_onUpdate event) w) r =
  match r with
  | translate_x =>
      useSharedValue (value (cells w savedTranslate_x) + translationX event)
  | translate_y =>
      useSharedValue (value (cells w savedTranslate_y) + translationY event)
  | _ => cells w r
  end.
Proof. destruct r; reflexivity. Qed.

Lemma panUpdates_cons (e : PanEvent) (es : list PanEvent) (w : World) :
  exec (panUpdates (e :: es)) w
  = exec (panUpdates es) (exec (panWhilePinchingGesture_onUpdate e) w).
Proof. unfold panUpdates. cbn [fold_right]. now rewrite exec_bind. Qed.

Lemma panUpdates_app (es es' : list PanEvent) : forall w,
  exec (panUpdates (es ++ es')) w
  = exec (panUpdates es') (exec (panUpdates es) w).
Proof.
  induction es as [| e es IH]; intros w; [reflexivity |].
  rewrite <- app_comm_cons, !panUpdates_cons. apply IH.
Qed.

Lemma panUpdates_frame (es : list PanEvent) : forall w,
  let w' := exec (panUpdates es) w in
  (forall r, r <> translate_x -> r <> translate_y -> cells w' r = cells w r) /\
  jsCalls w' = jsCalls w.
Proof.
  induction es as [| e es IH]; intros w; [now repeat split |].
  cbn zeta. rewrite panUpdates_cons.
  destruct (IH (exec (panWhilePinchingGesture_onUpdate e) w))
    as (Hcells & Hcalls).
  split; [| now rewrite Hcalls].
  intros r H1 H2. rewrite Hcells by assumption.
  rewrite pan_update_cells. destruct r; first [reflexivity | congruence].
Qed.

(** X14: during a pan, on either recognizer, translate is where it was
    when the pan started plus the translation of the latest update, however
    many updates came before; scale and focal are not touched, and the
    pan start is dispatched once. *)
Theorem pan_follows_latest_translation
    (start : PanEvent) (events : list PanEvent) (event : PanEvent) (w : World) :
  let w1 := exec (panUpdates (events ++ [event]))
                 (exec (panWhilePinchingGesture_onStart start) w) in
  panOnlyGesture_onStart = panWhilePinchingGesture_onStart /\
  panOnlyGesture_onUpdate = panWhilePinchingGesture_onUpdate /\
  cells w1 translate_x
  = useSharedValue (value (cells w translate_x) + translationX event) /\
  cells w1 translate_y
  = useSharedValue (value (cells w translate_y) + translationY event) /\
  cells w1 scale = cells w scale /\
  cells w1 focal_x = cells w focal_x /\
  cells w1 focal_y = cells w focal_y /\
  jsCalls w1 = jsCalls w ++ [onPanStarted_call start].
Proof.
  cbn zeta. split; [reflexivity |]. split; [reflexivity |].
  rewrite panUpdates_app, panUpdates_cons.
  set (w0 := exec (panWhilePinchingGesture_onStart start) w).
  destruct (panUpdates_frame events w0) as (Hcells & Hcalls).
  set (w' := exec (panUpdates events) w0) in *.
  change (exec (panUpdates []) ?x) with x.
  rewrite !pan_update_cells.
  rewrite !(Hcells savedTranslate_x), !(Hcells savedTranslate_y),
    !(Hcells scale), !(Hcells focal_x), !(Hcells focal_y) by discriminate.
  repeat split.
  change (jsCalls (exec (panWhilePinchingGesture_onUpdate event) w'))
    with (jsCalls w').
  now rewrite Hcalls.
Qed.

(** X15: when a pan ends with the scale at most 1, or with double tap
    disabled, no decay is started: every cell stays as it is and the
    pan-end completion is dispatched at once, once. *)
Theorem pan_end_without_decay
    (event : PanEvent) (success : bool) (w : World) :
  value (cells w scale) <= 1 \/ isDoubleTapEnabled props = false ->
  let w1 := exec (panOnlyGesture_onEnd props event success) w in
  exec (panWhilePinchingGesture_onEnd props event success) w = w1 /\
  (forall r, cells w1 r = cells w r) /\
  jsCalls w1 = jsCalls w ++ [onPanEnded_call event success] /\
  endValues w1 = endValues w.
Proof.
  intros Hcond w1.
  split; [unfold exec; now rewrite pan_onEnd_same |].
  assert (Hb : Qgtb (value (cells w scale)) 1 && isDoubleTapEnabled props
               = false).
  { destruct Hcond as [Hs | Htap].
    - apply Qgtb_false in Hs. now rewrite Hs.
    - rewrite Htap. apply andb_false_r. }
  subst w1. unfold panOnlyGesture_onEnd, limits_right, limits_bottom.
  unfold exec, bind, read. cbn beta iota. rewrite Hb. now repeat split.
Qed.


(** X17: with the scale above 1 the pan-only recognizer is not failed at
    touch down; it activates, dispatches the pan start, follows the
    update, and (with double tap disabled) dispatches the pan end at
    release and is then done. *)
Theorem panOnly_runs_when_zoomed
    (start update release : PanEvent) (success : bool) (w : World) :
  1 < value (cells w scale) ->
  isDoubleTapEnabled props = false ->
  let result := panOnlyGesture_sequence props UNDETERMINED
                  [TouchesDown; Activate start; Move update;
                   Release release success] w in
  fst result = END /\
  panOnlyGesture_onTouchesDown BEGAN w = (BEGAN, w) /\
  cells (snd result) translate_x
  = useSharedValue (value (cells w translate_x) + translationX update) /\
  cells (snd result) translate_y
  = useSharedValue (value (cells w translate_y) + translationY update) /\
  jsCalls (snd result)
  = jsCalls w ++ [onPanStarted_call start; onPanEnded_call release success].
Proof.
  intros Hs Htap result. apply Qleb_false in Hs.
  assert (Hdown : panOnlyGesture_onTouchesDown BEGAN w = (BEGAN, w)).
  { unfold panOnlyGesture_onTouchesDown, bind, read. now rewrite Hs. }
  assert (Hzoomed : Qgtb (value (cells w scale)) 1 = true)
    by (unfold Qgtb; unfold Qleb in Hs; now rewrite Hs).
  subst result.
  remember (panOnlyGesture_sequence props UNDETERMINED
              [TouchesDown; Activate start; Move update;
               Release release success] w) as res eqn:Hres.
  cbn [panOnlyGesture_sequence panOnlyGesture_deliver] in Hres.
  unfold bind in Hres. rewrite Hdown in Hres.
  unfold panOnlyGesture_onStart, panOnlyGesture_onUpdate,
    panOnlyGesture_onEnd, limits_right, limits_bottom in Hres.
  unfold_worklet in Hres.
  unfold panOnlyGesture_onEnd, limits_right, limits_bottom in Hres.
  unfold exec, bind, ret, read in Hres. cbn beta iota in Hres.
  cbn [cells Ref_eqb assign value] in Hres.
  rewrite Hzoomed, Htap in Hres. cbn in Hres.
  subst res. cbn. rewrite <- app_assoc. now repeat split.
Qed.

End PinchAndPan.

(** ** Move into view, double tap, zoom and getInfo *)

Section ViewOperations.

Variable props : Props.

Local Open Scope Q_scope.

Lemma Ref_eqb_eq (r r' : Ref) : Ref_eqb r r' = true -> r = r'.
Proof. destruct r, r'; first [reflexivity | discriminate]. Qed.

Lemma settled_idem (c : SharedValue) : settled (settled c) = settled c.
Proof. unfold settled. now destruct c as [v [[t cb | cfg cb] |]]. Qed.

Lemma hasCallback_settled (c : SharedValue) :
  hasCallback c = false -> hasCallback (settled c) = false.
Proof.
  unfold hasCallback, settled.
  now destruct c as [v [[t [cb |] | cfg [cb |]] |]].
Qed.

(** The end of a timing animation that carries no callback only moves the
    cell. *)
Lemma timingSettles_quiet (r0 : Ref) (w : World) :
  hasCallback (cells w r0) = false ->
  let w1 := exec (timingSettles props r0) w in
  (forall r, cells w1 r = if Ref_eqb r r0 then settled (cells w r0)
                          else cells w r) /\
  jsCalls w1 = jsCalls w /\ endValues w1 = endValues w /\
  interactionId w1 = interactionId w.
Proof.
  intros Hquiet w1. subst w1. unfold timingSettles, exec.
  unfold hasCallback in Hquiet. unfold settled.
  destruct (animation (cells w r0)) as [[t [cb |] | cfg cb] |] eqn:E;
    try discriminate.
  - unfold animationEnds. rewrite E. cbn. now repeat split.
  - cbn. repeat split. intros r.
    destruct (Ref_eqb r r0) eqn:Er; [| reflexivity].
    now apply Ref_eqb_eq in Er as ->.
  - cbn. repeat split. intros r.
    destruct (Ref_eqb r r0) eqn:Er; [| reflexivity].
    now apply Ref_eqb_eq in Er as ->.
Qed.

Lemma settle_quiet (rs : list Ref) : forall w : World,
  (forall r, hasCallback (cells w r) = false) ->
  let w' := exec (settle props rs) w in
  (forall r, cells w' r = if existsb (Ref_eqb r) rs then settled (cells w r)
                          else cells w r) /\
  jsCalls w' = jsCalls w /\ endValues w' = endValues w /\
  interactionId w' = interactionId w.
Proof.
  induction rs as [| r0 rs IH]; intros w Hquiet; [now repeat split |].
  cbn zeta. cbn [settle]. rewrite exec_bind.
  destruct (timingSettles_quiet r0 w (Hquiet r0))
    as (Hcells1 & Hcalls1 & Hend1 & Hid1).
  set (w1 := exec (timingSettles props r0) w) in *.
  destruct (IH w1) as (Hcells & Hcalls & Hend & Hid).
  { intros r. rewrite Hcells1. destruct (Ref_eqb r r0); [| apply Hquiet].
    apply hasCallback_settled, Hquiet. }
  split; [| now rewrite Hcalls, Hend, Hid].
  intros r. rewrite Hcells, Hcells1. cbn [existsb].
  destruct (Ref_eqb r r0) eqn:Er.
  - apply Ref_eqb_eq in Er as ->. cbn [orb].
    destruct (existsb _ rs); [apply settled_idem | reflexivity].
  - cbn [orb]. reflexivity.
Qed.

(** What [moveIntoView] leaves when the scale is above 1, cell by cell. *)
Lemma moveIntoView_cells (w : World) (r : Ref) :
  Qgtb (value (cells w scale)) 1 = true ->
  let R := limits.right (width props) (cells w scale) in
  let B := limits.bottom (height props) (cells w scale) in
  let totalX := sum [cells w translate_x; cells w focal_x] in
  let totalY := sum [cells w translate_y; cells w focal_y] in
  let w' := exec (moveIntoView props) w in
  cells w' r =
  match r with
  | translate_x =>
      if Qgtb totalX R
      then animate (withTiming R None) (cells w translate_x)
      else if Qltb totalX (- R)
           then animate (withTiming (- R) None) (cells w translate_x)
           else cells w translate_x
  | focal_x =>
      if Qgtb totalX R || Qltb totalX (- R)
      then animate (withTiming 0 None) (cells w focal_x)
      else cells w focal_x
  | translate_y =>
      if Qgtb totalY B
      then animate (withTiming B None) (cells w translate_y)
      else if Qltb totalY (- B)
           then animate (withTiming (- B) None) (cells w translate_y)
           else cells w translate_y
  | focal_y =>
      if Qgtb totalY B || Qltb totalY (- B)
      then animate (withTiming 0 None) (cells w focal_y)
      else cells w focal_y
  | _ => cells w r
  end /\
  jsCalls w' = jsCalls w /\ endValues w' = endValues w /\
  interactionId w' = interactionId w.
Proof.
  intros Hs R B totalX totalY w'.
  remember (exec (moveIntoView props) w) as w1 eqn:Hw1. subst w'.
  unfold moveIntoView, limits_right, limits_bottom, sum2 in Hw1.
  unfold exec, bind, read in Hw1. cbn beta iota in Hw1. rewrite Hs in Hw1.
  fold R B totalX totalY in Hw1.
  destruct (Qgtb totalX R), (Qltb totalX (- R)), (Qgtb totalY B),
    (Qltb totalY (- B));
    unfold_worklet in Hw1; subst w1; cbn; (split; [| now repeat split]);
    destruct r; reflexivity.
Qed.

(** X18: once the animations that [moveIntoView] started on a zoomed view
    at rest have ended, translate + focal is within the limits on both
    axes, the scale is what it was and nothing has been dispatched or
    recorded; calling [moveIntoView] again then changes no cell.  The
    container has a non-negative width and height. *)
Theorem moveIntoView_brings_into_view (w : World) :
  1 < value (cells w scale) ->
  0 <= width props -> 0 <= height props ->
  (forall r, animation (cells w r) = None) ->
  let R := width props * (value (cells w scale) - 1) / 2 in
  let B := height props * (value (cells w scale) - 1) / 2 in
  let w1 := exec (settle props [translate_x; focal_x; translate_y; focal_y])
                 (exec (moveIntoView props) w) in
  - R <= value (cells w1 translate_x) + value (cells w1 focal_x) <= R /\
  - B <= value (cells w1 translate_y) + value (cells w1 focal_y) <= B /\
  cells w1 scale = cells w scale /\
  jsCalls w1 = jsCalls w /\
  endValues w1 = endValues w /\
  (forall r, cells (exec (moveIntoView props) w1) r = cells w1 r).
Proof.
  intros Hs Hwidth Hheight Hrest R B w1.
  assert (HR : 0 <= R).
  { unfold R. assert (0 <= width props * (value (cells w scale) - 1))
      by (apply Qmult_le_0_compat; lra).
    apply Qle_shift_div_l; [reflexivity | now rewrite Qmult_0_l]. }
  assert (HB : 0 <= B).
  { unfold B. assert (0 <= height props * (value (cells w scale) - 1))
      by (apply Qmult_le_0_compat; lra).
    apply Qle_shift_div_l; [reflexivity | now rewrite Qmult_0_l]. }
  pose proof Hs as Hzoomed. apply Qgtb_true in Hzoomed.
  pose proof (sum_two (cells w translate_x) (cells w focal_x)) as HX.
  pose proof (sum_two (cells w translate_y) (cells w focal_y)) as HY.
  set (w0 := exec (moveIntoView props) w) in *.
  assert (Hquiet : forall r, hasCallback (cells w0 r) = false).
  { intros r. unfold w0.
    rewrite (proj1 (moveIntoView_cells w r Hzoomed)).
    assert (Hb : forall c, animation c = None -> hasCallback c = false)
      by (intros c Hc; unfold hasCallback; now rewrite Hc).
    destruct r; cbv beta iota zeta; try (apply Hb, Hrest);
      repeat match goal with
             | |- context [if ?b then _ else _] => destruct b
             end;
      first [reflexivity | apply Hb, Hrest]. }
  destruct (settle_quiet [translate_x; focal_x; translate_y; focal_y] w0 Hquiet)
    as (Hcells & Hcalls & Hend & _).
  fold w1 in Hcells, Hcalls, Hend.
  destruct (moveIntoView_cells w scale Hzoomed) as (_ & Hcalls0 & Hend0 & _).
  fold w0 in Hcalls0, Hend0.
  assert (Hscale : cells w1 scale = cells w scale).
  { rewrite Hcells. cbn. unfold w0.
    now rewrite (proj1 (moveIntoView_cells w scale Hzoomed)). }
  assert (Hvals :
    - R <= value (cells w1 translate_x) + value (cells w1 focal_x) <= R /\
    - B <= value (cells w1 translate_y) + value (cells w1 focal_y) <= B).
  { rewrite !Hcells. cbn [existsb Ref_eqb orb]. unfold w0.
    rewrite !(proj1 (moveIntoView_cells w _ Hzoomed)).
    change (limits.right (width props) (cells w scale)) with R.
    change (limits.bottom (height props) (cells w scale)) with B.
    destruct (Qgtb (sum [cells w translate_x; cells w focal_x]) R) eqn:EX1;
      [apply Qgtb_true in EX1 | apply Qgtb_false in EX1];
      (destruct (Qltb (sum [cells w translate_x; cells w focal_x]) (- R))
         eqn:EX2; [apply Qltb_true in EX2 | apply Qltb_false in EX2]);
      (destruct (Qgtb (sum [cells w translate_y; cells w focal_y]) B) eqn:EY1;
         [apply Qgtb_true in EY1 | apply Qgtb_false in EY1]);
      (destruct (Qltb (sum [cells w translate_y; cells w focal_y]) (- B))
         eqn:EY2; [apply Qltb_true in EY2 | apply Qltb_false in EY2]);
      rewrite ?HX, ?HY in *; unfold settled;
      cbn [orb animate animation value useSharedValue];
      rewrite ?Hrest; repeat split; lra. }
  split; [apply Hvals |]. split; [apply Hvals |].
  split; [exact Hscale |].
  split; [now rewrite Hcalls |]. split; [now rewrite Hend |].
  assert (Hzoomed1 : Qgtb (value (cells w1 scale)) 1 = true)
    by now rewrite Hscale.
  intros r. rewrite (proj1 (moveIntoView_cells w1 r Hzoomed1)).
  change (limits.right (width props) (cells w1 scale))
    with (width props * (value (cells w1 scale) - 1) / 2).
  change (limits.bottom (height props) (cells w1 scale))
    with (height props * (value (cells w1 scale) - 1) / 2).
  rewrite Hscale. fold R B.
  pose proof (sum_two (cells w1 translate_x) (cells w1 focal_x)) as HX1.
  pose proof (sum_two (cells w1 translate_y) (cells w1 focal_y)) as HY1.
  destruct Hvals as [[Hx1 Hx2] [Hy1 Hy2]].
  assert (EX1 : Qgtb (sum [cells w1 translate_x; cells w1 focal_x]) R = false)
    by (apply Qgtb_false; rewrite HX1; exact Hx2).
  assert (EX2 : Qltb (sum [cells w1 translate_x; cells w1 focal_x]) (- R)
                = false)
    by (apply Qltb_false; rewrite HX1; exact Hx1).
  assert (EY1 : Qgtb (sum [cells w1 translate_y; cells w1 focal_y]) B = false)
    by (apply Qgtb_false; rewrite HY1; exact Hy2).
  assert (EY2 : Qltb (sum [cells w1 translate_y; cells w1 focal_y]) (- B)
                = false)
    by (apply Qltb_false; rewrite HY1; exact Hy1).
  rewrite EX1, EX2, EY1, EY2. now destruct r.
Qed.

(** X19: a double tap toggles.  With the scale equal to 1 it dispatches
    [ZOOM_IN] and starts timing animations of scale to [doubleTapScale]
    and of focal to [(center - tap) * (doubleTapScale - 1)], which is what
    [zoom] does for that scale and point when [doubleTapScale > 1]; with
    any other scale, below 1 included, it dispatches [ZOOM_OUT] and
    resets. *)
Theorem doubleTap_toggles (event : TapEvent) (w : World) :
  (value (cells w scale) == 1 ->
   let result := doubleTapGesture_onStart props event w in
   fst result = [onDoubleTap_call ZOOM_IN] /\
   cells (snd result) scale
   = animate (withTiming (doubleTapScale props) None) (cells w scale) /\
   cells (snd result) focal_x
   = animate (withTiming ((center_x props - tap_x event)
                          * (doubleTapScale props - 1)) None)
             (cells w focal_x) /\
   cells (snd result) focal_y
   = animate (withTiming ((center_y props - tap_y event)
                          * (doubleTapScale props - 1)) None)
             (cells w focal_y) /\
   jsCalls (snd result) = jsCalls w /\
   (1 < doubleTapScale props ->
    forall r,
      cells (snd result) r
      = cells (exec (zoom props {| zoom_scale := doubleTapScale props;
                                   zoom_x := tap_x event;
                                   zoom_y := tap_y event |}) w) r)) /\
  (~ value (cells w scale) == 1 ->
   doubleTapGesture_onStart props event w
   = ([onDoubleTap_call ZOOM_OUT], exec reset w)).
Proof.
  split.
  - intros Hs result. apply Qeq_bool_iff in Hs. subst result.
    remember (doubleTapGesture_onStart props event w) as res eqn:Hres.
    unfold doubleTapGesture_onStart, bind at 1, read in Hres.
    rewrite Hs in Hres. cbv beta iota in Hres. unfold_worklet in Hres.
    subst res. cbn. repeat split.
    intros Hdt r. apply Qgtb_true in Hdt.
    remember (exec (zoom props {| zoom_scale := doubleTapScale props;
                                  zoom_x := tap_x event;
                                  zoom_y := tap_y event |}) w) as w0 eqn:Hw0.
    unfold zoom in Hw0. cbn [zoom_scale zoom_x zoom_y] in Hw0.
    rewrite Hdt in Hw0. cbv beta iota in Hw0. unfold_worklet in Hw0.
    subst w0. now destruct r.
  - intros Hs.
    assert (Hb : Qeq_bool (value (cells w scale)) 1 = false).
    { apply not_true_iff_false. intros Hb. now apply Qeq_bool_iff in Hb. }
    unfold doubleTapGesture_onStart, bind at 1, read. rewrite Hb.
    unfold bind, ret, exec. now destruct (reset w).
Qed.


End ViewOperations.

Section ZoomAtCenter.

Local Open Scope Q_scope.

(** X21: with the geometry that [useZoomable] takes from the layout event,
    a programmatic zoom aimed at the middle of the container, and a double
    tap there on a view at scale 1, settle at the target scale with no
    focal offset, and leave translate alone. *)
Theorem zoom_at_center_has_no_offset
    (onLayout : bool) (event : useZoomableLayout.LayoutRectangle)
    (state : useZoomableLayout.ZoomableLayoutState)
    (config : Props) (target : Q) (w : World) :
  let props :=
    useZoomable (fst (useZoomableLayout.onZoomableLayout onLayout event state))
                config in
  let mid_x := useZoomableLayout.x event + useZoomableLayout.width event / 2 in
  let mid_y := useZoomableLayout.y event + useZoomableLayout.height event / 2 in
  let settle3 := settle props [scale; focal_x; focal_y] in
  (1 < target ->
   let w1 := exec settle3
               (exec (zoom props {| zoom_scale := target;
                                    zoom_x := mid_x; zoom_y := mid_y |}) w) in
   value (cells w1 scale) = target /\
   value (cells w1 focal_x) == 0 /\
   value (cells w1 focal_y) == 0 /\
   cells w1 translate_x = cells w translate_x /\
   cells w1 translate_y = cells w translate_y) /\
  (value (cells w scale) == 1 ->
   let w1 := exec settle3
               (snd (doubleTapGesture_onStart props
                       {| tap_x := mid_x; tap_y := mid_y |} w)) in
   value (cells w1 scale) = doubleTapScale config /\
   value (cells w1 focal_x) == 0 /\
   value (cells w1 focal_y) == 0 /\
   cells w1 translate_x = cells w translate_x /\
   cells w1 translate_y = cells w translate_y).
Proof.
  intros props mid_x mid_y settle3. split.
  - intros Ht w1. apply Qgtb_true in Ht.
    remember (exec (zoom props {| zoom_scale := target;
                                  zoom_x := mid_x; zoom_y := mid_y |}) w)
      as w0 eqn:Hw0.
    unfold zoom in Hw0. cbn [zoom_scale zoom_x zoom_y] in Hw0.
    rewrite Ht in Hw0. cbv beta iota in Hw0. unfold_worklet in Hw0.
    subst w1 settle3 w0. unfold settle, timingSettles, animationEnds.
    unfold_worklet. repeat split; unfold mid_x, mid_y; ring.
  - intros Hs w1. apply Qeq_bool_iff in Hs.
    remember (snd (doubleTapGesture_onStart props
                     {| tap_x := mid_x; tap_y := mid_y |} w)) as w0 eqn:Hw0.
    unfold doubleTapGesture_onStart, bind at 1, read in Hw0.
    rewrite Hs in Hw0. cbv beta iota in Hw0. unfold_worklet in Hw0.
    subst w1 settle3 w0. unfold settle, timingSettles, animationEnds.
    unfold_worklet. repeat split; unfold mid_x, mid_y; ring.
Qed.

End ZoomAtCenter.

(** ** Handlers on the JS thread *)

Section Handlers.

Variable props : Props.
Variable host : HostCallbacks.

Lemma onInteractionStarted_spec (now : Z) (js : JSThread) :
  let js' := onInteractionStarted host now js in
  isInteracting js' = true /\
  isPinching js' = isPinching js /\
  panGestureCount js' = panGestureCount js /\
  hostCalls js' =
    hostCalls js ++ (if negb (isInteracting js) && onInteractionStart host
                     then [onInteractionStart_call] else []) /\
  world js' = (if isInteracting js then world js
               else updateInteractionId now (world js)).
Proof.
  unfold onInteractionStarted. destruct js as [[|] p n hc w]; cbn.
  - now rewrite app_nil_r.
  - now repeat split.
Qed.

Lemma onInteractionEnded_spec (js : JSThread) :
  let over := isInteracting js && negb (isPinching js)
              && negb (isPanning js) in
  let js' := onInteractionEnded props host js in
  isInteracting js' = (if over then false else isInteracting js) /\
  isPinching js' = isPinching js /\
  panGestureCount js' = panGestureCount js /\
  hostCalls js' =
    hostCalls js ++ (if over && onInteractionEnd host
                     then [onInteractionEnd_call] else []) /\
  world js' = (if over then settleStart props (world js) else world js).
Proof.
  unfold onInteractionEnded, settleStart.
  destruct (isInteracting js && negb (isPinching js) && negb (isPanning js));
    cbn [isInteracting isPinching panGestureCount hostCalls world
         optionalCall set_isInteracting on_world andb].
  - now repeat split.
  - now rewrite app_nil_r.
Qed.

Lemma isPanning_startPan (n : Z) :
  0 <= n -> usePanGestureCount.isPanning (usePanGestureCount.startPan n) = true.
Proof.
  intros Hn. unfold usePanGestureCount.isPanning, usePanGestureCount.startPan.
  apply Z.ltb_lt. lia.
Qed.

Lemma runHandler_consistent (js : JSThread) (c : JSHandlerCall) :
  consistent js -> consistent (runHandler props host js c).
Proof.
  intros [Hflag Hcount]. unfold consistent, isPanning in *.
  destruct c as [now e | e s | now e | e s]; cbn [runHandler].
  - unfold onPinchStarted.
    destruct (onInteractionStarted_spec now js) as (Hi & Hp & Hn & _).
    cbn [isInteracting isPinching panGestureCount optionalCall set_isPinching].
    rewrite Hi, Hn. now split.
  - unfold onPinchEnded.
    set (js1 := optionalCall (onPinchEnd host) (onPinchEnd_call e s)
                  (set_isPinching false js)).
    destruct (onInteractionEnded_spec js1) as (Hi & Hp & Hn & _).
    rewrite Hi, Hp, Hn. unfold isPanning.
    cbn [js1 isInteracting isPinching panGestureCount optionalCall
         set_isPinching].
    rewrite Hflag. split; [| exact Hcount].
    destruct (isPinching js),
      (usePanGestureCount.isPanning (panGestureCount js)); reflexivity.
  - unfold onPanStarted, startPan.
    destruct (onInteractionStarted_spec now js) as (Hi & Hp & Hn & _).
    cbn [isInteracting isPinching panGestureCount optionalCall
         on_panGestureCount].
    rewrite Hi, Hn, isPanning_startPan by exact Hcount.
    split; [now rewrite orb_true_r |].
    unfold usePanGestureCount.startPan. lia.
  - unfold onPanEnded, endPan.
    set (js1 := optionalCall (onPanEnd host) (onPanEnd_call e s)
                  (on_panGestureCount usePanGestureCount.endPan js)).
    destruct (onInteractionEnded_spec js1) as (Hi & Hp & Hn & _).
    rewrite Hi, Hp, Hn. unfold isPanning.
    cbn [js1 isInteracting isPinching panGestureCount optionalCall
         on_panGestureCount].
    split.
    + rewrite Hflag.
      destruct (isPinching js);
        destruct (usePanGestureCount.isPanning (panGestureCount js)) eqn:E1;
        destruct (usePanGestureCount.isPanning
                    (usePanGestureCount.endPan (panGestureCount js))) eqn:E2;
        try reflexivity.
      exfalso. unfold usePanGestureCount.isPanning,
        usePanGestureCount.endPan in *.
      rewrite E1 in E2. apply Z.ltb_ge in E1. apply Z.ltb_lt in E2. lia.
    + unfold usePanGestureCount.endPan.
      destruct (0 <? panGestureCount js) eqn:E;
        [apply Z.ltb_lt in E |]; lia.
Qed.

Lemma runHandlers_consistent (cs : list JSHandlerCall) : forall js,
  consistent js -> consistent (runHandlers props host cs js).
Proof.
  unfold runHandlers. induction cs as [| c cs IH]; intros js Hjs; [exact Hjs |].
  cbn [fold_left]. apply IH, runHandler_consistent, Hjs.
Qed.

(** X22: whatever handlers run, in whatever order, starting from the
    hook's initial refs: the view counts as interacting exactly while a
    pinch is active or a pan is counted, and the pan count is never
    negative. *)
Theorem interacting_while_a_gesture_is_active (cs : list JSHandlerCall) :
  let js := runHandlers props host cs initialJSThread in
  isInteracting js = isPinching js || isPanning js /\
  0 <= panGestureCount js.
Proof.
  apply runHandlers_consistent. split; [reflexivity |].
  unfold initialJSThread, usePanGestureCount.initial. cbn. lia.
Qed.

Lemma interactionStarts_app (a b : list HostCall) :
  interactionStarts (a ++ b) = interactionStarts a + interactionStarts b.
Proof. unfold interactionStarts. rewrite List.filter_app, length_app. lia. Qed.

Lemma interactionEnds_app (a b : list HostCall) :
  interactionEnds (a ++ b) = interactionEnds a + interactionEnds b.
Proof. unfold interactionEnds. rewrite List.filter_app, length_app. lia. Qed.

Lemma runHandler_open (js : JSThread) (c : JSHandlerCall) :
  onInteractionStart host = true -> onInteractionEnd host = true ->
  openInteractions js = (if isInteracting js then 1 else 0) ->
  let js' := runHandler props host js c in
  openInteractions js' = (if isInteracting js' then 1 else 0).
Proof.
  intros Hstart Hend Hopen js'. subst js'. unfold openInteractions in *.
  destruct c as [now e | e s | now e | e s]; cbn [runHandler].
  - unfold onPinchStarted.
    destruct (onInteractionStarted_spec now js) as (Hi & _ & _ & Hc & _).
    cbn [isInteracting hostCalls optionalCall set_isPinching].
    rewrite Hi, Hc, Hstart, !interactionStarts_app, !interactionEnds_app.
    revert Hopen. destruct (isInteracting js), (onPinchStart host);
      unfold interactionStarts, interactionEnds; cbn; lia.
  - unfold onPinchEnded.
    set (js1 := optionalCall (onPinchEnd host) (onPinchEnd_call e s)
                  (set_isPinching false js)).
    destruct (onInteractionEnded_spec js1) as (Hi & _ & _ & Hc & _).
    rewrite Hi, Hc, Hend, !interactionStarts_app, !interactionEnds_app.
    assert (H1 : interactionStarts (hostCalls js1)
                 = interactionStarts (hostCalls js)).
    { cbn [js1 hostCalls optionalCall set_isPinching].
      rewrite interactionStarts_app.
      destruct (onPinchEnd host); unfold interactionStarts; cbn; lia. }
    assert (H2 : interactionEnds (hostCalls js1)
                 = interactionEnds (hostCalls js)).
    { cbn [js1 hostCalls optionalCall set_isPinching].
      rewrite interactionEnds_app.
      destruct (onPinchEnd host); unfold interactionEnds; cbn; lia. }
    rewrite H1, H2.
    change (isInteracting js1) with (isInteracting js).
    revert Hopen.
    destruct (isInteracting js), (negb (isPinching js1)),
      (negb (isPanning js1));
      unfold interactionStarts, interactionEnds; cbn; lia.
  - unfold onPanStarted, startPan.
    destruct (onInteractionStarted_spec now js) as (Hi & _ & _ & Hc & _).
    cbn [isInteracting hostCalls optionalCall on_panGestureCount].
    rewrite Hi, Hc, Hstart, !interactionStarts_app, !interactionEnds_app.
    revert Hopen. destruct (isInteracting js), (onPanStart host);
      unfold interactionStarts, interactionEnds; cbn; lia.
  - unfold onPanEnded, endPan.
    set (js1 := optionalCall (onPanEnd host) (onPanEnd_call e s)
                  (on_panGestureCount usePanGestureCount.endPan js)).
    destruct (onInteractionEnded_spec js1) as (Hi & _ & _ & Hc & _).
    rewrite Hi, Hc, Hend, !interactionStarts_app, !interactionEnds_app.
    assert (H1 : interactionStarts (hostCalls js1)
                 = interactionStarts (hostCalls js)).
    { cbn [js1 hostCalls optionalCall on_panGestureCount].
      rewrite interactionStarts_app.
      destruct (onPanEnd host); unfold interactionStarts; cbn; lia. }
    assert (H2 : interactionEnds (hostCalls js1)
                 = interactionEnds (hostCalls js)).
    { cbn [js1 hostCalls optionalCall on_panGestureCount].
      rewrite interactionEnds_app.
      destruct (onPanEnd host); unfold interactionEnds; cbn; lia. }
    rewrite H1, H2.
    change (isInteracting js1) with (isInteracting js).
    revert Hopen.
    destruct (isInteracting js), (negb (isPinching js1)),
      (negb (isPanning js1));
      unfold interactionStarts, interactionEnds; cbn; lia.
Qed.

(** X23: with the interaction-start and interaction-end callbacks
    supplied, whatever handlers run from the initial refs, the host has
    received one more start than ends while the view is interacting, and
    as many ends as starts while it is not: every interaction is reported
    started once and ended once, even when a pinch and pans overlap. *)
Theorem interaction_callbacks_pair_up (cs : list JSHandlerCall) :
  onInteractionStart host = true -> onInteractionEnd host = true ->
  let js := runHandlers props host cs initialJSThread in
  interactionStarts (hostCalls js) - interactionEnds (hostCalls js)
  = (if isInteracting js then 1 else 0).
Proof.
  intros Hstart Hend. cbn zeta.
  change (openInteractions (runHandlers props host cs initialJSThread)
          = (if isInteracting (runHandlers props host cs initialJSThread)
             then 1 else 0)).
  assert (Hgen : forall js,
            openInteractions js = (if isInteracting js then 1 else 0) ->
            openInteractions (runHandlers props host cs js)
            = (if isInteracting (runHandlers props host cs js) then 1 else 0)).
  { unfold runHandlers. induction cs as [| c cs IH]; intros js Hjs;
      [exact Hjs |].
    cbn [fold_left]. now apply IH, runHandler_open. }
  now apply Hgen.
Qed.

(** X24: a gesture that starts while the view is idle gives the
    interaction the decimal clock reading as its id; a gesture that starts
    while the view is already interacting leaves the world, the id
    included, as it is and is not reported as a new interaction. *)
Theorem interaction_id_is_assigned_once
    (now : Z) (pinch : PinchEvent) (pan : PanEvent) (js : JSThread) :
  (isInteracting js = false ->
   interactionId (world (onPinchStarted host now pinch js)) = pretty now /\
   interactionId (world (onPanStarted host now pan js)) = pretty now) /\
  (isInteracting js = true ->
   world (onPinchStarted host now pinch js) = world js /\
   world (onPanStarted host now pan js) = world js /\
   interactionStarts (hostCalls (onPinchStarted host now pinch js))
   = interactionStarts (hostCalls js) /\
   interactionStarts (hostCalls (onPanStarted host now pan js))
   = interactionStarts (hostCalls js)).
Proof.
  destruct (onInteractionStarted_spec now js) as (_ & _ & _ & Hc & Hw).
  unfold onPinchStarted, onPanStarted, startPan.
  cbn [world hostCalls optionalCall set_isPinching on_panGestureCount].
  rewrite Hw, Hc, !interactionStarts_app. split; intros ->.
  - now split.
  - cbn [negb andb]. split; [reflexivity |]. split; [reflexivity |].
    destruct (onPinchStart host), (onPanStart host);
      unfold interactionStarts; cbn; split; lia.
Qed.

(** X25: when a pinch or a pan ends.  If a pinch is still active or a pan
    still counted afterwards, the world is left alone and the view keeps
    interacting as before.  If nothing is active any more and the view was
    interacting, the interaction is over: the view stops interacting, the
    world gets [moveIntoView] when double tap is enabled and [reset]
    otherwise, and the host's interaction-end callback, if supplied, is
    the last call made.  If the view was not interacting, the world is
    left alone. *)
Theorem interaction_ends_with_last_gesture
    (c : JSHandlerCall) (js : JSThread) :
  isEnd c = true ->
  let js' := runHandler props host js c in
  let active := isPinching js' || isPanning js' in
  (active = true ->
   world js' = world js /\ isInteracting js' = isInteracting js) /\
  (active = false -> isInteracting js = true ->
   isInteracting js' = false /\
   world js' = settleStart props (world js) /\
   (onInteractionEnd host = true ->
    last (hostCalls js') = Some onInteractionEnd_call)) /\
  (isInteracting js = false ->
   world js' = world js /\ isInteracting js' = false).
Proof.
  intros Hc js' active. subst js' active.
  destruct c as [now e | e s | now e | e s]; try discriminate Hc;
    cbn [runHandler].
  - unfold onPinchEnded.
    set (js1 := optionalCall (onPinchEnd host) (onPinchEnd_call e s)
                  (set_isPinching false js)).
    destruct (onInteractionEnded_spec js1) as (Hi & Hp & Hn & Hcalls & Hw).
    unfold isPanning in *. rewrite Hi, Hp, Hn, Hw, Hcalls.
    change (isInteracting js1) with (isInteracting js).
    change (world js1) with (world js).
    destruct (isInteracting js), (isPinching js1),
      (usePanGestureCount.isPanning (panGestureCount js1));
      cbn [negb andb orb]; repeat split; intros; try discriminate;
      try reflexivity.
    rewrite H1. now rewrite last_snoc.
  - unfold onPanEnded.
    set (js1 := optionalCall (onPanEnd host) (onPanEnd_call e s)
                  (endPan js)).
    destruct (onInteractionEnded_spec js1) as (Hi & Hp & Hn & Hcalls & Hw).
    unfold isPanning in *. rewrite Hi, Hp, Hn, Hw, Hcalls.
    change (isInteracting js1) with (isInteracting js).
    change (world js1) with (world js).
    destruct (isInteracting js), (isPinching js1),
      (usePanGestureCount.isPanning (panGestureCount js1));
      cbn [negb andb orb]; repeat split; intros; try discriminate;
      try reflexivity.
    rewrite H1. now rewrite last_snoc.
Qed.

End Handlers.

(** ** Reset without the completion callback *)

Section ResetSilently.

Variable props : Props.

Import useAnimationEnd.

(** X26: without the reset-completion callback, [reset] still brings every
    cell back to its initial value once its five animations have ended, in
    whatever order, and neither dispatches nor records anything. *)
Theorem reset_settles_silently (w : World) (order : list ANIMATION_VALUE) :
  onResetAnimationEnd props = false ->
  order ≡ₚ ANIMATION_VALUES ->
  let w2 := exec (settle props (cellOf <$> order)) (exec reset w) in
  (forall r, cells w2 r = cells initialWorld r) /\
  jsCalls w2 = jsCalls w /\
  endValues w2 = endValues w /\
  interactionId w2 = interactionId w.
Proof.
  intros Hcb Hp w2.
  assert (Hnd : NoDup order).
  { rewrite Hp. apply (bool_decide_unpack _). vm_compute. exact I. }
  assert (Hall : forall v, v ∈ order).
  { intros v. rewrite Hp. apply all_ANIMATION_VALUES. }
  destruct (settle_feed props (interactionId w)
              (fun v => value (cells w (cellOf v))) order Hnd (exec reset w))
    as (Hcells & Hother & Hid & Hend & Hcalls).
  { intros v _. now rewrite reset_starts. }
  fold w2 in Hcells, Hother, Hid, Hend, Hcalls.
  rewrite Hcb, feed_without_callback in Hend, Hcalls.
  cbn [fst snd] in Hend, Hcalls. rewrite app_nil_r in Hcalls.
  split; [| now repeat split].
  assert (Hcell : forall v, cells w2 (cellOf v) = useSharedValue (resetTarget v)).
  { intros v. apply Hcells, Hall. }
  assert (Hrest : forall r, (forall v, r <> cellOf v) ->
                            cells w2 r = cells (exec reset w) r).
  { intros r Hr. apply Hother.
    intros (v & -> & _)%list_elem_of_fmap. now apply (Hr v). }
  intros r.
  destruct r;
    first [ apply (Hcell SCALE) | apply (Hcell FOCAL_X)
          | apply (Hcell FOCAL_Y) | apply (Hcell TRANSLATE_X)
          | apply (Hcell TRANSLATE_Y)
          | rewrite Hrest by (intros []; discriminate); reflexivity ].
Qed.

End ResetSilently.

(** ** The further properties at sample inputs *)

Section MoreSamples.

Import useAnimationEnd.

Local Open Scope Q_scope.

(** Comparisons of concrete numbers, by evaluation. *)
Ltac by_evaluation :=
  vm_compute;
  first [ reflexivity | exact I | intro; discriminate
        | split; intro; discriminate ].

Lemma clamp_in_range_sample : 1 <= clamp 7 1 5 <= 5.
Proof. exact (proj1 (clamp_in_range 7 1 5 ltac:(by_evaluation))). Defined.

Lemma clamp_inverted_bounds_sample : clamp 3 5 1 == 1.
Proof. exact (clamp_inverted_bounds 3 5 1 ltac:(by_evaluation)). Defined.


Lemma pan_count_balance_sample :
  usePanGestureCount.run
    [usePanGestureCount.StartPan; usePanGestureCount.StartPan;
     usePanGestureCount.EndPan] usePanGestureCount.initial = 1%Z.
Proof.
  apply (proj2 (pan_count_balance
                  [usePanGestureCount.StartPan; usePanGestureCount.StartPan;
                   usePanGestureCount.EndPan])).
  intros n. do 4 (destruct n as [| n]; [by_evaluation |]). by_evaluation.
Defined.

Lemma aggregator_sessions_independent_sample :
  fst (feed true sampleCompletions {["other" := ∅]}) !! "other" = Some ∅.
Proof.
  rewrite (aggregator_sessions_independent true "other" sampleCompletions
             {["other" := ∅]}).
  - reflexivity.
  - repeat constructor; intro; discriminate.
Defined.

Lemma aggregator_keeps_partial_record_sample :
  snd (feed true (take 3 sampleCompletions) ∅) = [].
Proof.
  rewrite (aggregator_keeps_partial_record "1730000000000" ∅
             (take 3 sampleCompletions) TRANSLATE_X).
  - reflexivity.
  - discriminate.
  - repeat constructor.
  - reflexivity.
  - apply (bool_decide_unpack _). vm_compute. exact I.
Defined.

Lemma aggregator_fires_when_record_completes_sample :
  let pre := take 1 sampleCompletions ++ take 4 sampleCompletions in
  let c := {| c_interactionId := "1730000000000"; c_value := TRANSLATE_X;
              c_lastValue := 10; c_finished := Some true;
              c_current := Some 0 |} in
  snd (feed true pre ∅) = [] /\
  exists completed values,
    feed true (pre ++ [c]) ∅ = (∅, [onResetAnimationEnd_call completed values]).
Proof.
  intros pre c.
  destruct (aggregator_fires_when_record_completes "1730000000000" ∅ pre c)
    as (Hpre & Hfeed & _).
  - repeat constructor.
  - reflexivity.
  - reflexivity.
  - split; [exact Hpre |]. do 2 eexists. exact Hfeed.
Defined.

Lemma interaction_ids_follow_the_clock_sample :
  useInteractionId.updateInteractionId 1730000000000 ""
  <> useInteractionId.updateInteractionId 1730000000001 "1730000000000".
Proof.
  intros H.
  apply (proj2 (interaction_ids_follow_the_clock
                  1730000000000 1730000000001 "" "1730000000000")) in H.
  discriminate H.
Defined.

Lemma pinch_keeps_scale_in_range_sample :
  let event := {| pinch_scale := 100; focalX := 0; focalY := 0 |} in
  1 <= value (cells (exec (pinchGesture_onUpdate sampleProps event)
                          (worldAt "" 2 0 0 0 0)) scale) <= 5.
Proof.
  intros event.
  exact (pinch_keeps_scale_in_range sampleProps event (worldAt "" 2 0 0 0 0)
           ltac:(by_evaluation)).
Defined.

Lemma pinch_at_center_keeps_focal_sample :
  let w := worldAt "" 2 30 (-40) 0 0 in
  let w' := exec (pinchGesture_onUpdate sampleProps pinchAtCenter)
                 (exec (pinchGesture_onStart pinchAtCenter) w) in
  value (cells w' focal_x) == 30 /\ value (cells w' focal_y) == -40.
Proof.
  intros w w'.
  exact (pinch_at_center_keeps_focal sampleProps pinchAtCenter pinchAtCenter w
           ltac:(by_evaluation) ltac:(by_evaluation)).
Defined.

Lemma pinch_by_one_changes_nothing_sample :
  let update := {| pinch_scale := 1; focalX := 7; focalY := 9 |} in
  let w := worldAt "" 2 30 (-40) 0 0 in
  let w' := exec (pinchGesture_onUpdate sampleProps update)
                 (exec (pinchGesture_onStart pinchAtCenter) w) in
  value (cells w' scale) == 2 /\
  value (cells w' focal_x) == 30 /\
  value (cells w' focal_y) == -40.
Proof.
  intros update w w'.
  exact (pinch_by_one_changes_nothing sampleProps pinchAtCenter update w
           ltac:(by_evaluation) ltac:(by_evaluation)).
Defined.

Lemma pan_end_without_decay_sample :
  jsCalls (exec (panOnlyGesture_onEnd sampleProps flingLeft true) initialWorld)
  = [onPanEnded_call flingLeft true].
Proof.
  apply (pan_end_without_decay sampleProps flingLeft true initialWorld).
  left. by_evaluation.
Defined.


Lemma panOnly_runs_when_zoomed_sample :
  fst (panOnlyGesture_sequence samplePropsSingleTap UNDETERMINED
         [TouchesDown; Activate flingLeft; Move flingLeft;
          Release flingLeft true] (worldAt "" 2 0 0 0 0))
  = END.
Proof.
  apply (panOnly_runs_when_zoomed samplePropsSingleTap flingLeft flingLeft
           flingLeft true (worldAt "" 2 0 0 0 0)).
  - by_evaluation.
  - reflexivity.
Defined.

Lemma moveIntoView_brings_into_view_sample :
  let w := worldAt "" 2 0 0 400 0 in
  let w1 := exec (settle sampleProps
                    [translate_x; focal_x; translate_y; focal_y])
                 (exec (moveIntoView sampleProps) w) in
  - (300 * (2 - 1) / 2)
  <= value (cells w1 translate_x) + value (cells w1 focal_x)
  <= 300 * (2 - 1) / 2.
Proof.
  intros w w1.
  apply (moveIntoView_brings_into_view sampleProps w).
  - by_evaluation.
  - by_evaluation.
  - by_evaluation.
  - intros r. now destruct r.
Defined.

Lemma doubleTap_toggles_sample :
  fst (doubleTapGesture_onStart sampleProps {| tap_x := 10; tap_y := 20 |}
         initialWorld)
  = [onDoubleTap_call ZOOM_IN] /\
  fst (doubleTapGesture_onStart sampleProps {| tap_x := 10; tap_y := 20 |}
         (worldAt "" (1 # 2) 0 0 0 0))
  = [onDoubleTap_call ZOOM_OUT].
Proof.
  split.
  - apply (proj1 (doubleTap_toggles sampleProps {| tap_x := 10; tap_y := 20 |}
                    initialWorld)).
    by_evaluation.
  - rewrite (proj2 (doubleTap_toggles sampleProps
                      {| tap_x := 10; tap_y := 20 |}
                      (worldAt "" (1 # 2) 0 0 0 0)));
      [reflexivity | by_evaluation].
Defined.


Lemma zoom_at_center_has_no_offset_sample :
  let props :=
    useZoomable (fst (useZoomableLayout.onZoomableLayout true sampleLayout
                        useZoomableLayout.initial)) sampleProps in
  let w1 := exec (settle props [scale; focal_x; focal_y])
              (exec (zoom props {| zoom_scale := 3;
                                   zoom_x := 10 + 300 / 2;
                                   zoom_y := 20 + 400 / 2 |}) initialWorld) in
  value (cells w1 scale) = 3 /\ value (cells w1 focal_x) == 0.
Proof.
  intros props w1.
  destruct (proj1 (zoom_at_center_has_no_offset true sampleLayout
                     useZoomableLayout.initial sampleProps 3 initialWorld))
    as (Hs & Hx & _).
  - by_evaluation.
  - split; [exact Hs | exact Hx].
Defined.

Lemma interaction_callbacks_pair_up_sample :
  let js := runHandlers sampleProps sampleHost
              [PinchStarted 1730000000000 pinchAtCenter;
               PanStarted 1730000000005 flingLeft;
               PinchEnded pinchAtCenter true;
               PanEnded flingLeft true] initialJSThread in
  (interactionStarts (hostCalls js) - interactionEnds (hostCalls js)
   = (if isInteracting js then 1 else 0))%Z.
Proof.
  intros js.
  apply (interaction_callbacks_pair_up sampleProps sampleHost); reflexivity.
Defined.

Lemma interaction_id_is_assigned_once_sample :
  let js := onPinchStarted sampleHost 1730000000000 pinchAtCenter
              initialJSThread in
  interactionId (world js) = "1730000000000" /\
  world (onPanStarted sampleHost 1730000000005 flingLeft js) = world js.
Proof.
  intros js. split.
  - apply (proj1 (interaction_id_is_assigned_once sampleHost 1730000000000
                    pinchAtCenter flingLeft initialJSThread)).
    reflexivity.
  - apply (proj2 (interaction_id_is_assigned_once sampleHost 1730000000005
                    pinchAtCenter flingLeft js)).
    reflexivity.
Defined.

Lemma interaction_ends_with_last_gesture_sample :
  let js := onPanStarted sampleHost 1730000000000 flingLeft initialJSThread in
  let js' := runHandler sampleProps sampleHost js (PanEnded flingLeft true) in
  isInteracting js' = false /\
  world js' = settleStart sampleProps (world js).
Proof.
  intros js js'.
  destruct (interaction_ends_with_last_gesture sampleProps sampleHost
              (PanEnded flingLeft true) js eq_refl) as (_ & Hover & _).
  destruct Hover as (Hi & Hw & _); [reflexivity | reflexivity |].
  split; [exact Hi | exact Hw].
Defined.

Lemma reset_settles_silently_sample :
  let props := useZoomable useZoomableLayout.initial
                 {| width := 0; height := 0; center_x := 0; center_y := 0;
                    minScale := 1; maxScale := 5; doubleTapScale := 3;
                    isDoubleTapEnabled := false;
                    onResetAnimationEnd := false |} in
  let w := worldAt "1730000000000" 2 30 (-40) 10 20 in
  let order := [TRANSLATE_Y; SCALE; FOCAL_Y; FOCAL_X; TRANSLATE_X] in
  jsCalls (exec (settle props (cellOf <$> order)) (exec reset w)) = [].
Proof.
  intros props w order.
  apply (reset_settles_silently props w order).
  - reflexivity.
  - apply (bool_decide_unpack _). vm_compute. exact I.
Defined.

End MoreSamples.
